(** * SUPEN return analysis: retrieval, aggregation and ranking

    A shallow embedding of [supen_analysis.py]: the tolerant parsing of one
    horizon's API response ([fetch_returns_for_horizon]), the merge of the
    three horizons against the operator directory ([collect_returns]), the
    ranking by long term return ([create_ranking]) and the error handling of
    [main].

    Python values are modelled as follows.
    - [float] is IEEE 754 binary64, as [spec_float] with precision 53 and
      maximal exponent 1024.
    - [str] is [string]; one [ascii] stands for one code point, so the model
      covers text whose code points lie below 256.
    - the value returned by [response.json()] is a [json] tree; a JSON object
      is an association list read by its first binding of a key (the keys
      of a decoded object are distinct), and its integers are those that the
      decoder returns, which [str] writes out in full.
    - [Dict[str, float]] is a [gmap string float].
    - a pandas data frame is the list of its rows with their index labels;
      a missing cell, [None] or NaN, is [None].

    Three things outside the program are parameters of the pipeline: the
    transport ([network], the answer to each GET), numpy's index sort
    ([argsort], whose contract [index_sort] is stated with the properties),
    and [repr] of a float or a container.  Network calls, pauses and printed
    messages are logged by the computations, in [IO]. *)

From Stdlib Require Import ZArith Ascii String List Bool Lia SpecFloat.
From Stdlib Require Import DecimalString.
From stdpp Require Import base option list strings gmap sorting.

Open Scope string_scope.

(** ** Floating point numbers *)

Module Float.

Definition prec : Z := 53.
Definition emax : Z := 1024.

Definition float := spec_float.

(** The correctly rounded (nearest, ties to even) value of [m * 2^e]. *)
Definition of_Z_exp (m e : Z) : float := binary_normalize prec emax m e false.

(** The correctly rounded value of [(-1)^s * m / d], for [d > 0]. *)
Definition of_ratio (s : bool) (m : Z) (d : positive) : float :=
  match m with
  | Z0 => S754_zero s
  | _ =>
      let '(q, e, l) := SFdiv_core_binary prec emax (Z.abs m) 0 (Zpos d) 0 in
      binary_round_aux prec emax s q e l
  end.

Definition is_nan (f : float) : bool :=
  match f with S754_nan => true | _ => false end.

Definition is_zero (f : float) : bool :=
  match f with S754_zero _ => true | _ => false end.

Definition ltb (x y : float) : bool := SFltb x y.
Definition leb (x y : float) : bool := SFleb x y.
Definition eqb (x y : float) : bool := SFeqb x y.

Definition one : float := of_Z_exp 1 0.
Definition zero : float := S754_zero false.
Definition inf (s : bool) : float := S754_infinity s.
Definition nan : float := S754_nan.

End Float.

Import Float.

(** ** Python strings *)

Module PyStr.

Definition code (c : ascii) : N := N_of_ascii c.

(** [str.isspace] on one character: the white space code points below 256. *)
Definition isspace (c : ascii) : bool :=
  let n := code c in
  ((9 <=? n) && (n <=? 13) || (28 <=? n) && (n <=? 31)
   || (n =? 32) || (n =? 133) || (n =? 160))%N.

Fixpoint lstrip (s : string) : string :=
  match s with
  | EmptyString => EmptyString
  | String c r => if isspace c then lstrip r else s
  end.

Definition rstrip (s : string) : string := String.rev (lstrip (String.rev s)).

(** [s.strip()] *)
Definition strip (s : string) : string := rstrip (lstrip s).

Definition is_digit (c : ascii) : bool :=
  let n := code c in ((48 <=? n) && (n <=? 57))%N.

Definition digit_val (c : ascii) : Z := Z.of_N (code c) - 48.

(** ASCII lower case, as [Py_TOLOWER]. *)
Definition tolower (c : ascii) : ascii :=
  let n := code c in
  if ((65 <=? n) && (n <=? 90))%N then ascii_of_N (n + 32) else c.

Fixpoint lower (s : string) : string :=
  match s with
  | EmptyString => EmptyString
  | String c r => String (tolower c) (lower r)
  end.

(** [str(n)] for an [int]. *)
Definition of_int (n : Z) : string := NilZero.string_of_int (Z.to_int n).

End PyStr.

(** ** [float(s)] for a string

    Follows [PyFloat_FromString]: surrounding white space is dropped,
    underscores are accepted between digits only, then the whole text must be
    a decimal literal (sign, digits with an optional point, optional
    exponent) or one of inf, infinity, nan in any letter case with an
    optional sign.  The value is the correctly rounded binary64 number;
    a magnitude too large gives an infinity, not an error.

    The white space dropped is not that of [str.strip]: white space beyond
    ASCII is first turned into a blank, then the ASCII white space of
    [Py_ISSPACE] is dropped at both ends, so the separators U+001C to
    U+001F stay and make the text invalid. *)

Module FloatParse.
Import PyStr.

Definition is_float_space (c : ascii) : bool :=
  let n := code c in
  ((9 <=? n) && (n <=? 13) || (n =? 32) || (n =? 133) || (n =? 160))%N.

Fixpoint lstrip_float (s : string) : string :=
  match s with
  | EmptyString => EmptyString
  | String c r => if is_float_space c then lstrip_float r else s
  end.

Definition strip_float (s : string) : string :=
  String.rev (lstrip_float (String.rev (lstrip_float s))).

Definition underscore : ascii := "_"%char.

Definition prev_is_digit (prev : option ascii) : bool :=
  match prev with Some p => is_digit p | None => false end.

Definition prev_is_underscore (prev : option ascii) : bool :=
  match prev with Some p => if ascii_dec p underscore then true else false | None => false end.

Fixpoint remove_underscores (prev : option ascii) (s : string) : option string :=
  match s with
  | EmptyString => if prev_is_underscore prev then None else Some EmptyString
  | String c r =>
      if ascii_dec c underscore then
        if prev_is_digit prev then remove_underscores (Some c) r else None
      else if prev_is_underscore prev && negb (is_digit c) then None
      else String c <$> remove_underscores (Some c) r
  end.

Definition parse_sign (s : string) : bool * string :=
  match s with
  | String "-" r => (true, r)
  | String "+" r => (false, r)
  | _ => (false, s)
  end.

(** Reads a run of digits: the number read so far, how many were read,
    and the rest of the text. *)
Fixpoint take_digits (acc : Z) (count : nat) (s : string) : Z * nat * string :=
  match s with
  | String c r =>
      if is_digit c then take_digits (10 * acc + digit_val c) (S count) r
      else (acc, count, s)
  | EmptyString => (acc, count, s)
  end.

Definition parse_exponent (s : string) : option Z :=
  match s with
  | EmptyString => Some 0%Z
  | String c r =>
      if ascii_dec (tolower c) "e"%char then
        let '(neg, r1) := parse_sign r in
        match take_digits 0 0 r1 with
        | (_, O, _) => None
        | (e, _, EmptyString) => Some (if neg then - e else e)%Z
        | _ => None
        end
      else None
  end.

(** A decimal literal without its sign: the digits as an integer [m] and
    the power of ten [e], for the value [m * 10^e]. *)
Definition parse_decimal (s : string) : option (Z * Z) :=
  let '(i, ni, r) := take_digits 0 0 s in
  let '(m, nf, r') :=
    match r with
    | String "." r1 => take_digits i 0 r1
    | _ => (i, O, r)
    end in
  match (ni + nf)%nat with
  | O => None
  | _ => e ← parse_exponent r'; Some (m, (e - Z.of_nat nf)%Z)
  end.

Definition decimal_to_float (neg : bool) (m e : Z) : float :=
  match e with
  | Zneg p => of_ratio neg m (10 ^ p)
  | _ => match m with
         | Z0 => S754_zero neg
         | _ => of_Z_exp ((if neg then - m else m) * 10 ^ e) 0
         end
  end.

Definition parse_inf_or_nan (s : string) : option float :=
  let '(neg, r) := parse_sign s in
  let w := lower r in
  if string_dec w "inf" then Some (inf neg)
  else if string_dec w "infinity" then Some (inf neg)
  else if string_dec w "nan" then Some nan
  else None.

Definition float_of_string (s : string) : option float :=
  s' ← remove_underscores None (strip_float s);
  let '(neg, r) := parse_sign s' in
  match parse_decimal r with
  | Some (m, e) => Some (decimal_to_float neg m e)
  | None => parse_inf_or_nan s'
  end.

End FloatParse.

Import FloatParse.

(** ** Exceptions and outcomes *)

Inductive exn :=
  | ValueError | TypeError | KeyError | AttributeError | OverflowError
  | HTTPError | ConnectionError | JSONDecodeError | RecursionError.

Global Instance exn_eq_dec : EqDecision exn.
Proof. solve_decision. Defined.

(** [issubclass]: the decoding error of [response.json()] is a [ValueError];
    every other class stands alone below [Exception]. *)
Definition issubclass (e cls : exn) : bool :=
  bool_decide (e = cls) || bool_decide (e = JSONDecodeError) && bool_decide (cls = ValueError).

Inductive outcome (A : Type) :=
  | Ok (a : A)
  | Raise (e : exn).
Arguments Ok {A} a.
Arguments Raise {A} e.

Global Instance outcome_ret : MRet outcome := fun _ a => Ok a.
Global Instance outcome_bind : MBind outcome := fun _ _ f r =>
  match r with Ok a => f a | Raise e => Raise e end.

(** [try: body except (classes): handler] *)
Definition try_except {A} (body : outcome A) (classes : list exn) (handler : outcome A) : outcome A :=
  match body with
  | Ok a => Ok a
  | Raise e => if existsb (issubclass e) classes then handler else Raise e
  end.

(** ** JSON values, as returned by [response.json()] *)

#[warnings="-register-all"]
Inductive json :=
  | JNull
  | JBool (b : bool)
  | JInt (n : Z)
  | JFloat (f : float)
  | JStr (s : string)
  | JList (l : list json)
  | JDict (d : list (string * json)).

(** A Python [dict] with string keys, read by [key in d] and [d[key]]. *)
Definition dict := list (string * json).

Fixpoint dict_lookup (key : string) (d : dict) : option json :=
  match d with
  | [] => None
  | (k, v) :: rest => if string_dec k key then Some v else dict_lookup key rest
  end.

(** [d.get(key, default)] *)
Definition dict_get (d : dict) (key : string) (default : json) : json :=
  match dict_lookup key d with Some v => v | None => default end.

(** [d[key]] *)
Definition dict_getitem (d : dict) (key : string) : outcome json :=
  match dict_lookup key d with Some v => Ok v | None => Raise KeyError end.

Definition is_list (v : json) : bool :=
  match v with JList _ => true | _ => false end.

(** Truth value of a value in an [if]. *)
Definition truthy (v : json) : bool :=
  match v with
  | JNull => false
  | JBool b => b
  | JInt n => negb (n =? 0)%Z
  | JFloat f => negb (is_zero f)
  | JStr s => negb (bool_decide (s = EmptyString))
  | JList l => negb (bool_decide (length l = 0%nat))
  | JDict d => negb (bool_decide (length d = 0%nat))
  end.

(** [float(n)] for an [int]: correctly rounded, and an [OverflowError] when
    the rounded value is beyond the largest finite double. *)
Definition float_of_int (n : Z) : outcome float :=
  match of_Z_exp n 0 with
  | S754_infinity _ => Raise OverflowError
  | f => Ok f
  end.

(** [float(v)] *)
Definition py_float (v : json) : outcome float :=
  match v with
  | JNull => Raise TypeError
  | JBool b => Ok (if b then one else zero)
  | JInt n => float_of_int n
  | JFloat f => Ok f
  | JStr s => match float_of_string s with Some f => Ok f | None => Raise ValueError end
  | JList _ => Raise TypeError
  | JDict _ => Raise TypeError
  end.

(** ** Effects: network calls, pauses and console output *)

Inductive event :=
  | EGet (url : string)
  | ESleep (seconds : Z)
  | EPrint (text : string) (err : exn).

(** A computation reads and extends the log of events and returns a value
    or raises. *)
Definition IO (A : Type) : Type := list event → outcome A * list event.

Global Instance IO_ret : MRet IO := fun _ a log => (Ok a, log).
Global Instance IO_bind : MBind IO := fun _ _ f c log =>
  match c log with
  | (Ok a, log') => f a log'
  | (Raise e, log') => (Raise e, log')
  end.

Definition emit (ev : event) : IO unit := fun log => (Ok tt, (log ++ [ev])%list).
Definition lift {A} (r : outcome A) : IO A := fun log => (r, log).

(** [try: body except ...], one handler per clause, first match wins;
    [None] as class list stands for [except Exception]. *)
Fixpoint handle {A} (e : exn) (clauses : list (option (list exn) * (exn → IO A))) : IO A :=
  match clauses with
  | [] => lift (Raise e)
  | (None, h) :: _ => h e
  | (Some classes, h) :: rest => if existsb (issubclass e) classes then h e else handle e rest
  end.

Definition io_try {A} (body : IO A) (clauses : list (option (list exn) * (exn → IO A))) : IO A :=
  fun log =>
    match body log with
    | (Ok a, log') => (Ok a, log')
    | (Raise e, log') => handle e clauses log'
    end.

(** ** Configuration *)

Definition BASE_URL : string := "https://webapps.supen.fi.cr/Estadisticas/API".

Record endpoint_cfg := { endpoint : string; field : string }.

Definition ENDPOINTS : list (string * endpoint_cfg) :=
  [ ("short", {| endpoint := "/rendimientos/nominal/12meses"; field := "rendimiento" |});
    ("medium", {| endpoint := "/rendimientos/nominal/36meses"; field := "rendimiento" |});
    ("long", {| endpoint := "/rendimientos/nominal/60meses"; field := "rendimiento" |}) ].

Fixpoint endpoints_lookup (horizon : string) (table : list (string * endpoint_cfg)) : option endpoint_cfg :=
  match table with
  | [] => None
  | (k, cfg) :: rest => if string_dec k horizon then Some cfg else endpoints_lookup horizon rest
  end.

(** The no-break space U+00A0, which the names of the directory hold where
    a blank would be expected, and the letter e with acute accent. *)
Definition nbsp : string := String (ascii_of_nat 160) "".
Definition e_acute : string := String (ascii_of_nat 233) "".

(** The operator directory, name to code, in its insertion order. *)
Definition OPERATORS : list (string * string) :=
  [ ("BN" ++ nbsp ++ "Vital", "BNV");
    ("BCR" ++ nbsp ++ "Pensiones", "BCR");
    ("Popular" ++ nbsp ++ "Pensiones", "POP");
    ("BAC" ++ nbsp ++ "San" ++ nbsp ++ "Jos" ++ e_acute, "BAC");
    ("Vida" ++ nbsp ++ "Plena", "VID");
    ("ACOFINSA", "ACO") ].

Definition CALL_DELAY_SEC : Z := 10.

Record ReturnData := {
  operator : string;
  short : option float;
  medium : option float;
  long : option float
}.

(** One row of the data frame, with the columns of [as_dict]. *)
Record Row := {
  Operator : string;
  Short_term : option float;
  Medium_term : option float;
  Long_term : option float
}.

Definition as_dict (rd : ReturnData) : Row :=
  {| Operator := operator rd;
     Short_term := short rd;
     Medium_term := medium rd;
     Long_term := long rd |}.

(** A data frame: the rows with their index labels. *)
Abbreviation DataFrame := (list (nat * Row)).

(** Why [response.json()] raises, when it does: the body is not JSON
    (JSONDecodeError); it is JSON with an integer of more digits than [int]
    converts from text (plain ValueError); it is JSON nested deeper than the
    decoder descends (RecursionError). *)
Inductive json_failure := NotJSON | DigitLimit | TooDeep.

Definition json_failure_error (why : json_failure) : exn :=
  match why with
  | NotJSON => JSONDecodeError
  | DigitLimit => ValueError
  | TooDeep => RecursionError
  end.

(** The answer of the server to one GET. *)
Record response := {
  status_code : Z;
  body : option json;         (* what [response.json()] returns; [None]: it raises *)
  json_error : json_failure   (* why it raises, when [body] is [None] *)
}.

(** [response.raise_for_status()] *)
Definition raise_for_status (r : response) : outcome unit :=
  if (400 <=? status_code r)%Z && (status_code r <? 600)%Z then Raise HTTPError else Ok tt.

(** [response.json()] *)
Definition response_json (r : response) : outcome json :=
  match body r with
  | Some data => Ok data
  | None => Raise (json_failure_error (json_error r))
  end.

(** ** Locating the list of records (lines 181 to 196) *)

Definition ENVELOPE_KEYS : list string := ["datos"; "data"; "records"; "result"].

Fixpoint find_records (keys : list string) (data : dict) : option (list json) :=
  match keys with
  | [] => None
  | key :: rest =>
      match dict_lookup key data with
      | Some (JList l) => Some l
      | _ => find_records rest data
      end
  end.

Definition locate_records (data : json) : outcome (list json) :=
  match data with
  | JDict d =>
      match find_records ENVELOPE_KEYS d with
      | Some records => Ok records
      | None => Raise KeyError
      end
  | JList l => Ok l
  | _ => Raise KeyError
  end.

(** ** The pipeline *)

Section Pipeline.

(** [repr] of a float, a list or a dict, which [str] falls back to. *)
Variable repr : json → string.

(** The transport: what [requests.get(url, timeout=30, verify=False)]
    returns or raises for each URL. *)
Variable network : string → outcome response.

(** numpy's index sort of an array without NaN, for the sorting kind that
    [sort_values] uses when none is given. *)
Variable argsort : list float → list nat.

(** [str(v)] *)
Definition py_str (v : json) : string :=
  match v with
  | JStr s => s
  | JNull => "None"
  | JBool true => "True"
  | JBool false => "False"
  | JInt n => PyStr.of_int n
  | _ => repr v
  end.

(** *** Reading the records (lines 198 to 207) *)

(** [rec.get("operadora", rec.get("operador", rec.get("codigo_operadora")))] *)
Definition operator_code_of (rec : dict) : json :=
  dict_get rec "operadora" (dict_get rec "operador" (dict_get rec "codigo_operadora" JNull)).

(** The body of the [try]; a value that is no dict has no [get]. *)
Definition record_body (field : string) (result : gmap string float) (rec : json)
  : outcome (gmap string float) :=
  match rec with
  | JDict d =>
      let operator_code := operator_code_of d in
      value ← dict_getitem d field;
      if truthy operator_code then
        f ← py_float value;
        Ok (<[PyStr.strip (py_str operator_code) := f]> result)
      else Ok result
  | _ => Raise AttributeError
  end.

Definition process_record (field : string) (result : gmap string float) (rec : json)
  : outcome (gmap string float) :=
  try_except (record_body field result rec) [KeyError; ValueError; TypeError] (Ok result).

Fixpoint for_records (field : string) (records : list json) (result : gmap string float)
  : outcome (gmap string float) :=
  match records with
  | [] => Ok result
  | rec :: rest => result' ← process_record field result rec; for_records field rest result'
  end.

Definition extract_returns (field : string) (records : list json) : outcome (gmap string float) :=
  for_records field records ∅.

(** *** One horizon *)

Definition requests_get (url : string) : IO response :=
  emit (EGet url);; lift (network url).

Definition fetch_returns_for_horizon (horizon : string) : IO (gmap string float) :=
  cfg ← lift (match endpoints_lookup horizon ENDPOINTS with
              | Some cfg => Ok cfg
              | None => Raise ValueError
              end);
  let url := BASE_URL ++ endpoint cfg in
  resp ← requests_get url;
  lift (raise_for_status resp);;
  data ← lift (response_json resp);
  records ← lift (locate_records data);
  lift (extract_returns (field cfg) records).

(** *** Aggregation (lines 225 to 234) *)

Definition aggregate (directory : list (string * string))
    (short_data medium_data long_data : gmap string float) : list ReturnData :=
  map (fun '(name, code) =>
         {| operator := name;
            short := short_data !! code;
            medium := medium_data !! code;
            long := long_data !! code |}) directory.

Definition sleep (seconds : Z) : IO unit := emit (ESleep seconds).

Definition collect_returns : IO (list ReturnData) :=
  short_data ← fetch_returns_for_horizon "short";
  sleep CALL_DELAY_SEC;;
  medium_data ← fetch_returns_for_horizon "medium";
  sleep CALL_DELAY_SEC;;
  long_data ← fetch_returns_for_horizon "long";
  mret (aggregate OPERATORS short_data medium_data long_data).

(** *** Ranking *)

(** [isna]: a missing cell is [None] or NaN. *)
Definition isna (v : option float) : bool :=
  match v with None => true | Some f => is_nan f end.

(** A cell of a numeric column: pandas stores [None] as NaN and reads both
    as missing, so a frame does not tell them apart; the missing cell is
    written [None] here. *)
Definition cell (v : option float) : option float :=
  if isna v then None else v.

Definition frame_row (r : Row) : Row :=
  {| Operator := Operator r;
     Short_term := cell (Short_term r);
     Medium_term := cell (Medium_term r);
     Long_term := cell (Long_term r) |}.

(** The default index: labels 0, 1, ... *)
Definition enumerate (rows : list Row) : DataFrame := imap (fun i r => (i, r)) rows.

(** [pd.DataFrame(rows)] *)
Definition make_frame (rows : list Row) : DataFrame := enumerate (map frame_row rows).

Inductive na_pos := na_first | na_last.

(** [mask = isna(items)], read at a position. *)
Definition mask_at (items : list (option float)) (i : nat) : bool :=
  match items !! i with Some v => isna v | None => true end.

(** The cell at a position, as a float. *)
Definition value_at (items : list (option float)) (i : nat) : float :=
  match items !! i with Some (Some f) => f | _ => nan end.

(** [idx[~mask]], [idx[mask]] and [items[~mask]]: the positions of the cells
    that are not missing, those of the missing ones, and the values of the
    former. *)
Definition non_nan_idx (items : list (option float)) : list nat :=
  filter (fun i => mask_at items i = false) (seq 0 (length items)).

Definition nan_idx (items : list (option float)) : list nat :=
  filter (fun i => mask_at items i = true) (seq 0 (length items)).

Definition non_nans (items : list (option float)) : list float :=
  map (value_at items) (non_nan_idx items).

(** pandas' [nargsort]: the positions of the missing cells are set aside
    in their order, the other cells are index sorted (for a descending
    sort: reversed, sorted, and the result reversed again), and the
    missing ones are put last or first.  Positions that an index sort
    cannot return, beyond the array, are dropped. *)
Definition nargsort (items : list (option float)) (ascending : bool) (na_position : na_pos)
  : list nat :=
  let values := if ascending then non_nans items else rev (non_nans items) in
  let positions := if ascending then non_nan_idx items else rev (non_nan_idx items) in
  let indexer := omap (fun k => positions !! k) (argsort values) in
  let indexer := if ascending then indexer else rev indexer in
  match na_position with
  | na_last => (indexer ++ nan_idx items)%list
  | na_first => (nan_idx items ++ indexer)%list
  end.

(** [df.take(indexer)] *)
Definition take_rows (df : DataFrame) (indexer : list nat) : DataFrame :=
  omap (fun i => df !! i) indexer.

(** [df.sort_values(by=..., ascending=..., na_position=...)] on one
    numeric column. *)
Definition sort_values (df : DataFrame) (by_column : Row → option float)
    (ascending : bool) (na_position : na_pos) : DataFrame :=
  let k := map (fun r => by_column r.2) df in
  take_rows df (nargsort k ascending na_position).

(** A frame built from no row has no column, and [sort_values] raises
    KeyError for a column that is not there. *)
Definition create_ranking (returns : list ReturnData) : outcome DataFrame :=
  let df := make_frame (map as_dict returns) in
  match returns with
  | [] => Raise KeyError
  | _ => Ok (sort_values df Long_term false na_last)
  end.

(** *** The run (lines 265 to 277 of [main])

    The value is [ranking_df], handed to the rendering that follows, or
    [None] when [main] returns after reporting a failure. *)
Definition main : IO (option DataFrame) :=
  returns_list ← io_try (l ← collect_returns; mret (Some l))
    [ (Some [HTTPError], fun err =>
         emit (EPrint "HTTP error when contacting SUPEN API: " err);; mret None);
      (Some [KeyError], fun err =>
         emit (EPrint "Unexpected data format: " err);; mret None);
      (None, fun err =>
         emit (EPrint "An error occurred: " err);; mret None) ];
  match returns_list with
  | None => mret None
  | Some l => ranking_df ← lift (create_ranking l); mret (Some ranking_df)
  end.

End Pipeline.

(** ** Two index sorts

    An insertion sort that places each new position before the first
    position already placed whose value it must precede.  With the strict
    comparison equal values keep their order; with the large one the last
    of them comes first. *)

Fixpoint insert_index (before : float → float → bool) (xs : list float)
    (i : nat) (placed : list nat) : list nat :=
  match placed with
  | [] => [i]
  | j :: rest =>
      if before (nth i xs nan) (nth j xs nan) then i :: j :: rest
      else j :: insert_index before xs i rest
  end.

Definition insertion_argsort (before : float → float → bool) (xs : list float) : list nat :=
  foldl (fun placed i => insert_index before xs i placed) [] (seq 0 (length xs)).

Definition stable_argsort : list float → list nat := insertion_argsort Float.ltb.
Definition unstable_argsort : list float → list nat := insertion_argsort Float.leb.

(** * Vocabulary of the properties *)

(** ** Shapes and records *)

(** The response is a mapping with a list under one of the envelope keys, or
    a bare list. *)
Definition recognised_envelope (data : json) : Prop :=
  (∃ d key l, data = JDict d ∧ key ∈ ENVELOPE_KEYS ∧ dict_lookup key d = Some (JList l))
  ∨ (∃ l, data = JList l).

(** The record inserts value [v] under key [k]: it is a mapping whose
    operator code is truthy and has the trimmed string form [k], and whose
    value field holds something that [float] turns into [v]. *)
Definition writes (repr : json → string) (field : string) (rec : json)
    (k : string) (v : float) : Prop :=
  ∃ d value,
    rec = JDict d
    ∧ truthy (operator_code_of d) = true
    ∧ k = PyStr.strip (py_str repr (operator_code_of d))
    ∧ dict_lookup field d = Some value
    ∧ py_float value = Ok v.

Definition CODE_FIELDS : list string := ["operadora"; "operador"; "codigo_operadora"].

(** The value of the first field of the list that is a key of the record,
    whatever this value is. *)
Fixpoint first_present_field (fields : list string) (d : dict) : option json :=
  match fields with
  | [] => None
  | name :: rest =>
      match dict_lookup name d with
      | Some v => Some v
      | None => first_present_field rest d
      end
  end.

(** ** The run *)

Definition HORIZONS : list string := ["short"; "medium"; "long"].

(** What a horizon's fetch returns or raises; it does not depend on the
    log. *)
Definition horizon_outcome (repr : json → string) (network : string → outcome response)
    (horizon : string) : outcome (gmap string float) :=
  (fetch_returns_for_horizon repr network horizon []).1.

Definition url_of (horizon : string) : string :=
  match endpoints_lookup horizon ENDPOINTS with
  | Some cfg => BASE_URL ++ endpoint cfg
  | None => ""
  end.

(** The text that [main] prints before the error. *)
Definition failure_text (e : exn) : string :=
  if issubclass e HTTPError then "HTTP error when contacting SUPEN API: "
  else if issubclass e KeyError then "Unexpected data format: "
  else "An error occurred: ".

(** ** Order *)

Definition not_nan (x : float) : Prop := is_nan x = false.

(** Position [a] may be read before position [b] in an ascending reading
    of [xs]: the value at [b] is not below the value at [a]. *)
Definition ascending_at (xs : list float) (a b : nat) : Prop :=
  Float.ltb (nth b xs nan) (nth a xs nan) = false.

(** Positions of equal values are read in increasing order. *)
Definition ties_in_order (xs : list float) (a b : nat) : Prop :=
  Float.eqb (nth a xs nan) (nth b xs nan) = true → a < b.

(** What an index sort owes: a permutation of the positions that reads the
    array, NaN apart, in ascending order. *)
Record index_sort (argsort : list float → list nat) : Prop := {
  index_sort_perm : ∀ xs, argsort xs ≡ₚ seq 0 (length xs);
  index_sort_ordered : ∀ xs,
    Forall not_nan xs → StronglySorted (ascending_at xs) (argsort xs)
}.

(** A stable index sort keeps the positions of equal values in order. *)
Definition stable_index_sort (argsort : list float → list nat) : Prop :=
  ∀ xs, Forall not_nan xs → StronglySorted (ties_in_order xs) (argsort xs).

(** The positions of the cells that are not missing, in the order that a
    descending sort gives them. *)
Definition present_positions (argsort : list float → list nat)
    (items : list (option float)) : list nat :=
  rev (omap (fun k => rev (non_nan_idx items) !! k) (argsort (rev (non_nans items)))).

(** On the cells of a column, which may hold NaN: [v1] may stand before
    [v2] in a descending sort with the missing cells last, and the two cells
    tie. *)
Definition sorts_before (v1 v2 : option float) : Prop :=
  isna v2 = true
  ∨ (isna v1 = false ∧ isna v2 = false ∧ Float.leb (default nan v2) (default nan v1) = true).

Definition ties_with (v1 v2 : option float) : Prop :=
  (isna v1 = true ∧ isna v2 = true)
  ∨ (isna v1 = false ∧ isna v2 = false ∧ Float.eqb (default nan v1) (default nan v2) = true).

(** On the values of the rows of a frame: a row with value [v1] may stand
    before a row with value [v2] in the ranking when [v2] is absent, or both
    are present and [v2 <= v1]; never an absent value before a present one. *)
Definition ranks_before (v1 v2 : option float) : Prop :=
  match v1, v2 with
  | _, None => True
  | None, Some _ => False
  | Some x, Some y => Float.leb y x = true
  end.

(** Equal ranking keys: both absent, or equal numbers. *)
Definition same_key (v1 v2 : option float) : Prop :=
  match v1, v2 with
  | None, None => True
  | Some x, Some y => Float.eqb x y = true
  | _, _ => False
  end.

(** The rows of the ranking carry as labels their positions in the input,
    so that "in the same relative order as in the input" reads: with
    increasing labels. *)
Definition keeps_input_order (r1 r2 : nat * Row) : Prop :=
  same_key (Long_term r1.2) (Long_term r2.2) → r1.1 < r2.1.

(** A map of returns that holds numbers only. *)
Definition numeric (m : gmap string float) : Prop :=
  ∀ k f, m !! k = Some f → is_nan f = false.

(** The ranking read as a lookup by operator name. *)
Definition by_operator (df : DataFrame)
  : gmap string (option float * option float * option float) :=
  list_to_map (map (fun r => (Operator r.2, (Short_term r.2, Medium_term r.2, Long_term r.2))) df).

(** ** Data of the scenarios *)

(** A stand-in for [repr]; the examples use string codes only. *)
Definition plain_repr (v : json) : string := "<repr>".

(** The double written [s]. *)
Definition float_lit (s : string) : float := default nan (float_of_string s).

(** Scenario A. *)
Definition scenario_A_directory : list (string * string) := [("X", "C1"); ("Y", "C2")].
Definition scenario_A_short : gmap string float := {[ "C1" := float_lit "8.5" ]}.
Definition scenario_A_medium : gmap string float := ∅.
Definition scenario_A_long : gmap string float :=
  <["C1" := float_lit "7.0"]> {[ "C2" := float_lit "9.0" ]}.

Definition scenario_A_returns : list ReturnData :=
  aggregate scenario_A_directory scenario_A_short scenario_A_medium scenario_A_long.

Definition scenario_A_ranking : DataFrame :=
  [ (1, {| Operator := "Y"; Short_term := None; Medium_term := None;
           Long_term := Some (float_lit "9.0") |});
    (0, {| Operator := "X"; Short_term := Some (float_lit "8.5"); Medium_term := None;
           Long_term := Some (float_lit "7.0") |}) ].

(** Scenario B: the body [{"foo": [1, 2, 3]}]. *)
Definition scenario_B_body : json := JDict [("foo", JList [JInt 1; JInt 2; JInt 3])].

Definition scenario_B_network (url : string) : outcome response :=
  Ok {| status_code := 200; body := Some scenario_B_body; json_error := NotJSON |}.

(** Scenario D: two records coded C1 with different values. *)
Definition scenario_D_records : list json :=
  [ JDict [("operador", JStr "C1"); ("rendimiento", JFloat (float_lit "7.0"))];
    JDict [("operador", JStr " C1 "); ("rendimiento", JFloat (float_lit "9.5"))] ].

(** A record whose operadora is null and whose operador is C1. *)
Definition null_operadora_record : dict :=
  [("operadora", JNull); ("operador", JStr "C1"); ("rendimiento", JFloat (float_lit "7.0"))].

(** A record whose value is an integer beyond the range of a double. *)
Definition huge_value_record : json :=
  JDict [("operador", JStr "C1"); ("rendimiento", JInt (10 ^ 400))].

(** A run whose second fetch gets the body of scenario B. *)
Definition medium_fails_network (url : string) : outcome response :=
  if string_dec url (BASE_URL ++ "/rendimientos/nominal/36meses")
  then Ok {| status_code := 200; body := Some scenario_B_body; json_error := NotJSON |}
  else Ok {| status_code := 200; body := Some (JList []); json_error := NotJSON |}.

(** Five records: two tied numbers, a missing value, a NaN. *)
Definition mixed_returns : list ReturnData :=
  [ {| operator := "A"; short := None; medium := None; long := Some (float_lit "5") |};
    {| operator := "B"; short := None; medium := None; long := None |};
    {| operator := "C"; short := None; medium := None; long := Some (float_lit "5") |};
    {| operator := "D"; short := None; medium := None; long := Some nan |};
    {| operator := "E"; short := None; medium := None; long := Some (float_lit "6") |} ].

(** A record without a long term value, then one whose value is NaN. *)
Definition absent_then_nan : list ReturnData :=
  [ {| operator := "A"; short := None; medium := None; long := None |};
    {| operator := "B"; short := None; medium := None; long := Some nan |} ].

(** Four records, tied two by two: A and B at 5, C and D at 6. *)
Definition tied_returns : list ReturnData :=
  [ {| operator := "A"; short := None; medium := None; long := Some (float_lit "5") |};
    {| operator := "B"; short := None; medium := None; long := Some (float_lit "5") |};
    {| operator := "C"; short := None; medium := None; long := Some (float_lit "6") |};
    {| operator := "D"; short := None; medium := None; long := Some (float_lit "6") |} ].

(** What the ranking of the tied records is with [unstable_argsort]. *)
Definition tied_ranking : DataFrame :=
  Eval vm_compute in
    match create_ranking unstable_argsort tied_returns with
    | Ok ranking => ranking
    | Raise _ => []
    end.

(** ** Kinds of records *)

(** The record is passed over: it is a mapping without the value field, or
    with a falsy operator code, or with a value that [float] rejects with
    ValueError or TypeError. *)
Definition skipped (field : string) (rec : json) : Prop :=
  ∃ d, rec = JDict d
    ∧ (dict_lookup field d = None
       ∨ truthy (operator_code_of d) = false
       ∨ ∃ value e, dict_lookup field d = Some value
                    ∧ py_float value = Raise e
                    ∧ (e = ValueError ∨ e = TypeError)).

(** The record ends the loop with error [e]: it is no mapping (the error is
    AttributeError), or a mapping with a truthy operator code whose value is
    an integer beyond the range of a double (OverflowError). *)
Definition fatal (field : string) (rec : json) (e : exn) : Prop :=
  match rec with
  | JDict d =>
      truthy (operator_code_of d) = true
      ∧ e = OverflowError
      ∧ ∃ n, dict_lookup field d = Some (JInt n) ∧ float_of_int n = Raise OverflowError
  | _ => e = AttributeError
  end.

(** ** White space at the ends of a key *)

Definition starts_with_space (s : string) : bool :=
  match s with String c _ => PyStr.isspace c | EmptyString => false end.

Definition ends_with_space (s : string) : bool := starts_with_space (String.rev s).

Fixpoint all_space (s : string) : bool :=
  match s with String c r => PyStr.isspace c && all_space r | EmptyString => true end.

(** ** Outcomes and ties *)

Definition is_ok {A} (r : outcome A) : bool :=
  match r with Ok _ => true | Raise _ => false end.

(** No two records carry equal long term numbers. *)
Definition no_ties (returns : list ReturnData) : Prop :=
  ∀ i j rdi rdj x y,
    returns !! i = Some rdi → returns !! j = Some rdj →
    long rdi = Some x → long rdj = Some y →
    Float.eqb x y = true → i = j.

(** ** More data *)

(** A record whose operator code is two blanks. *)
Definition blank_code_record : dict :=
  [("operador", JStr "  "); ("rendimiento", JFloat (float_lit "7.0"))].

(** A server that answers every request with an empty list, and one that
    answers every request with status 404.  The last field of an answer is
    read only when there is no body. *)
Definition empty_list_network (url : string) : outcome response :=
  Ok {| status_code := 200; body := Some (JList []); json_error := NotJSON |}.

Definition not_found_network (url : string) : outcome response :=
  Ok {| status_code := 404; body := Some (JList []); json_error := NotJSON |}.

(** A server whose bodies are JSON with an integer of too many digits. *)
Definition digit_limit_network (url : string) : outcome response :=
  Ok {| status_code := 200; body := None; json_error := DigitLimit |}.

(** What the run yields against [empty_list_network]. *)
Definition directory_order_ranking : DataFrame :=
  Eval vm_compute in
    match (main plain_repr empty_list_network stable_argsort []).1 with
    | Ok (Some ranking) => ranking
    | _ => []
    end.

(** The records of scenario A with other short and medium term values. *)
Definition scenario_A_other_terms : list ReturnData :=
  [ {| operator := "X"; short := None; medium := Some (float_lit "1.5");
       long := Some (float_lit "7.0") |};
    {| operator := "Y"; short := Some (float_lit "2.5"); medium := None;
       long := Some (float_lit "9.0") |} ].

(** * Properties *)

(** ** Fetching one horizon *)

Section FetchFacts.

Variable repr : json → string.
Variable network : string → outcome response.

Lemma fetch_unfold horizon cfg log :
  endpoints_lookup horizon ENDPOINTS = Some cfg →
  fetch_returns_for_horizon repr network horizon log =
    ((resp ← network (BASE_URL ++ endpoint cfg);
      raise_for_status resp;;
      data ← response_json resp;
      records ← locate_records data;
      extract_returns repr (field cfg) records),
     (log ++ [EGet (BASE_URL ++ endpoint cfg)])%list).
Proof.
  intros Hcfg. unfold fetch_returns_for_horizon, requests_get, lift, emit.
  unfold mbind, IO_bind, outcome_bind. rewrite Hcfg. simpl.
  destruct (network _) as [resp|e]; [|done].
  destruct (raise_for_status resp) as [[]|e]; [|done].
  destruct (response_json resp) as [data|e]; [|done].
  by destruct (locate_records data).
Qed.

Lemma fetch_body horizon cfg resp data log :
  endpoints_lookup horizon ENDPOINTS = Some cfg →
  network (BASE_URL ++ endpoint cfg) = Ok resp →
  raise_for_status resp = Ok tt →
  body resp = Some data →
  (fetch_returns_for_horizon repr network horizon log).1 =
    (records ← locate_records data; extract_returns repr (field cfg) records).
Proof.
  intros Hcfg Hnet Hst Hbody. rewrite (fetch_unfold _ cfg) by done. simpl.
  rewrite Hnet. unfold mbind, outcome_bind. rewrite Hst.
  unfold response_json. by rewrite Hbody.
Qed.

(** [float] raises nothing but these three errors. *)
Lemma py_float_raises v e :
  py_float v = Raise e → e = TypeError ∨ e = ValueError ∨ e = OverflowError.
Proof.
  destruct v as [|b|n|f|s|l|d]; simpl; intros H; try discriminate;
    try (injection H as <-; auto; fail).
  - unfold float_of_int in H. destruct (of_Z_exp n 0); simplify_eq; auto.
  - destruct (float_of_string s); simplify_eq; auto.
Qed.

(** What escapes the [try] of the loop. *)
Lemma process_record_raises field result rec e :
  process_record repr field result rec = Raise e →
  e = AttributeError ∨ e = OverflowError.
Proof.
  unfold process_record, try_except.
  destruct (record_body repr field result rec) as [m|e'] eqn:Hbody; [done|].
  destruct (existsb _ _) eqn:Hcaught; [done|]. intros [= <-].
  destruct rec as [| | | | | |d]; simpl in Hbody; try (injection Hbody as <-; auto; fail).
  unfold dict_getitem in Hbody.
  destruct (dict_lookup field d) as [value|]; simpl in Hbody;
    [|injection Hbody as <-; done].
  destruct (truthy _); [|done].
  destruct (py_float value) as [f|e''] eqn:Hf; simpl in Hbody; [done|].
  injection Hbody as <-.
  destruct (py_float_raises _ _ Hf) as [->|[->| ->]]; try done. auto.
Qed.

Lemma for_records_raises field records result e :
  for_records repr field records result = Raise e →
  e = AttributeError ∨ e = OverflowError.
Proof.
  revert result. induction records as [|rec rest IH]; intros result; simpl; [done|].
  destruct (process_record repr field result rec) as [m|e'] eqn:Hrec; simpl.
  - apply IH.
  - intros [= <-]. by eapply process_record_raises.
Qed.

Lemma find_records_Some keys d l :
  find_records keys d = Some l ↔
  ∃ pre key post, keys = (pre ++ key :: post)%list
    ∧ dict_lookup key d = Some (JList l)
    ∧ ∀ k, k ∈ pre → is_list (default JNull (dict_lookup k d)) = false.
Proof.
  induction keys as [|k keys IH]; simpl.
  { split; [done|]. intros (pre & key & post & Heq & _). by destruct pre. }
  destruct (is_list (default JNull (dict_lookup k d))) eqn:Hv.
  - destruct (dict_lookup k d) as [[| | | | |l0|]|] eqn:Hk; try done. split.
    + intros [= ->]. exists [], k, keys. split_and!; [done|done|].
      intros k' Hk'. by apply elem_of_nil in Hk'.
    + intros (pre & key & post & Heq & Hkey & Hpre).
      destruct pre as [|k' pre]; simpl in Heq; injection Heq as <- Heq.
      * congruence.
      * specialize (Hpre k (ltac:(left))). by rewrite Hk in Hpre.
  - assert (match dict_lookup k d with
            | Some (JList l0) => Some l0
            | _ => find_records keys d
            end = find_records keys d) as ->.
    { by destruct (dict_lookup k d) as [[]|]. }
    rewrite IH. split.
    + intros (pre & key & post & -> & Hkey & Hpre).
      exists (k :: pre), key, post. split_and!; [done|done|].
      intros k' [->|Hk']%elem_of_cons; [done|by apply Hpre].
    + intros (pre & key & post & Heq & Hkey & Hpre).
      destruct pre as [|k' pre]; simpl in Heq; injection Heq as <- Heq.
      * rewrite Hkey in Hv. done.
      * exists pre, key, post. split_and!; [done|done|].
        intros k'' Hk''. apply Hpre. by right.
Qed.

End FetchFacts.

Lemma locate_records_recognised data :
  recognised_envelope data ↔ ∃ records, locate_records data = Ok records.
Proof.
  split.
  - intros [(d & key & l & -> & Hin & Hkey)|[l ->]]; cbn [locate_records]; [|by eexists].
    destruct (find_records ENVELOPE_KEYS d) as [records|] eqn:Hfind; [by eexists|].
    exfalso. clear -Hin Hkey Hfind.
    induction ENVELOPE_KEYS as [|k keys IH]; [by apply elem_of_nil in Hin|].
    simpl in Hfind. apply elem_of_cons in Hin as [<-|Hin].
    + by rewrite Hkey in Hfind.
    + apply IH; [done|]. by destruct (dict_lookup k d) as [[]|].
  - intros [records Hloc]. destruct data as [| | | | |l|d]; cbn [locate_records] in Hloc; try done.
    + right. by eexists.
    + left. destruct (find_records ENVELOPE_KEYS d) as [l|] eqn:Hfind; [|done].
      apply find_records_Some in Hfind as (pre & key & post & Heq & Hkey & _).
      exists d, key, l. split_and!; [done| |done].
      rewrite Heq. apply elem_of_app. right. left.
Qed.

Lemma locate_records_error data e :
  locate_records data = Raise e → e = KeyError.
Proof.
  destruct data as [| | | | |l|d]; cbn [locate_records]; try (by intros [= <-]).
  destruct (find_records ENVELOPE_KEYS d); by intros [= <-].
Qed.

(** C3. Once the transport has delivered a JSON body, the fetch raises
    KeyError (the shape error) exactly when the body is neither a mapping
    with a list under one of datos, data, records, result nor a bare list.
    For a mapping, the records read are the list under the first of these
    keys, in this order, whose value is a list; for a bare list, the list
    itself. *)
Theorem fetch_shape_error (repr : json → string) (network : string → outcome response)
    (horizon : string) (cfg : endpoint_cfg) (resp : response) (data : json) (log : list event) :
  endpoints_lookup horizon ENDPOINTS = Some cfg →
  network (BASE_URL ++ endpoint cfg) = Ok resp →
  raise_for_status resp = Ok tt →
  body resp = Some data →
  ((fetch_returns_for_horizon repr network horizon log).1 = Raise KeyError
     ↔ ¬ recognised_envelope data)
  ∧ (∀ d pre key post l,
       data = JDict d →
       ENVELOPE_KEYS = (pre ++ key :: post)%list →
       dict_lookup key d = Some (JList l) →
       (∀ k, k ∈ pre → is_list (default JNull (dict_lookup k d)) = false) →
       (fetch_returns_for_horizon repr network horizon log).1
         = extract_returns repr (field cfg) l)
  ∧ (∀ l, data = JList l →
       (fetch_returns_for_horizon repr network horizon log).1
         = extract_returns repr (field cfg) l).
Proof.
  intros Hcfg Hnet Hst Hbody.
  rewrite (fetch_body repr network horizon cfg resp data log) by done.
  split_and!.
  - split.
    + intros Hraise [records Hloc]%locate_records_recognised.
      rewrite Hloc in Hraise. simpl in Hraise.
      by destruct (for_records_raises _ _ _ _ _ Hraise).
    + intros Hnot. destruct (locate_records data) as [records|e] eqn:Hloc.
      * destruct Hnot. apply locate_records_recognised. by eexists.
      * simpl. by rewrite (locate_records_error _ _ Hloc).
  - intros d pre key post l -> Hkeys Hkey Hpre. cbn [locate_records].
    assert (find_records ENVELOPE_KEYS d = Some l) as ->; [|done].
    apply find_records_Some. by exists pre, key, post.
  - by intros l ->.
Qed.

Lemma fetch_shape_error_witness :
  (fetch_returns_for_horizon plain_repr scenario_B_network "short" []).1 = Raise KeyError.
Proof.
  apply (fetch_shape_error plain_repr scenario_B_network "short"
           {| endpoint := "/rendimientos/nominal/12meses"; field := "rendimiento" |}
           {| status_code := 200; body := Some scenario_B_body; json_error := NotJSON |} scenario_B_body []);
    [reflexivity|reflexivity|reflexivity|reflexivity|].
  intros [(d & key & l & Hd & Hin & Hkey)|[l Hl]]; [|discriminate].
  injection Hd as <-. unfold ENVELOPE_KEYS in Hin.
  repeat (apply elem_of_cons in Hin as [->|Hin]; [discriminate|]).
  by apply elem_of_nil in Hin.
Defined.

(** ** One record *)

Section RecordFacts.

Variable repr : json → string.

Lemma process_record_writes field result rec k v :
  writes repr field rec k v →
  process_record repr field result rec = Ok (<[k := v]> result).
Proof.
  intros (d & value & -> & Htruthy & -> & Hvalue & Hfloat).
  unfold process_record, record_body, dict_getitem.
  rewrite Hvalue. simpl. rewrite Htruthy, Hfloat. done.
Qed.

Lemma process_record_missing_value field result d :
  dict_lookup field d = None →
  process_record repr field result (JDict d) = Ok result.
Proof.
  intros Hvalue. unfold process_record, record_body, dict_getitem. by rewrite Hvalue.
Qed.

Lemma process_record_falsy_code field result d :
  truthy (operator_code_of d) = false →
  process_record repr field result (JDict d) = Ok result.
Proof.
  intros Hfalsy. unfold process_record, record_body, dict_getitem.
  destruct (dict_lookup field d); simpl; [|done]. by rewrite Hfalsy.
Qed.

Lemma process_record_bad_value field result d value e :
  dict_lookup field d = Some value →
  py_float value = Raise e →
  e = ValueError ∨ e = TypeError →
  process_record repr field result (JDict d) = Ok result.
Proof.
  intros Hvalue Hfloat He. unfold process_record, record_body, dict_getitem.
  rewrite Hvalue. simpl. destruct (truthy _); [|done].
  rewrite Hfloat. simpl. by destruct He as [-> | ->].
Qed.

Lemma process_record_inv field result rec result' :
  process_record repr field result rec = Ok result' →
  result' = result ∨ ∃ k v, writes repr field rec k v ∧ result' = <[k := v]> result.
Proof.
  unfold process_record, try_except.
  destruct (record_body repr field result rec) as [m|e] eqn:Hbody.
  - intros [= <-]. destruct rec as [| | | | | |d]; try done.
    simpl in Hbody. unfold dict_getitem in Hbody.
    destruct (dict_lookup field d) as [value|] eqn:Hvalue; [|done]. simpl in Hbody.
    destruct (truthy (operator_code_of d)) eqn:Htruthy; [|left; congruence].
    destruct (py_float value) as [f|] eqn:Hfloat; [|done]. simpl in Hbody.
    injection Hbody as <-. right. eexists _, f. split; [|done].
    by exists d, value.
  - destruct (existsb _ _); [|done]. intros [= <-]. by left.
Qed.

Lemma for_records_app field l1 l2 result :
  for_records repr field (l1 ++ l2) result =
    (result' ← for_records repr field l1 result; for_records repr field l2 result').
Proof.
  revert result. induction l1 as [|rec l1 IH]; intros result; simpl; [done|].
  destruct (process_record repr field result rec); simpl; [apply IH|done].
Qed.

(** Every binding of the final map was there at the start or was written
    by a record. *)
Lemma for_records_origin field records result final k v :
  for_records repr field records result = Ok final →
  final !! k = Some v →
  result !! k = Some v ∨ ∃ rec, rec ∈ records ∧ writes repr field rec k v.
Proof.
  revert result. induction records as [|rec rest IH]; intros result; simpl.
  - intros [= <-]. by left.
  - destruct (process_record repr field result rec) as [m|] eqn:Hrec; [|done]. simpl.
    intros Hrest Hk. destruct (IH _ Hrest Hk) as [Hm|(rec' & Hin & Hw)].
    + destruct (process_record_inv _ _ _ _ Hrec) as [->|(k' & v' & Hw & ->)]; [by left|].
      destruct (decide (k' = k)) as [->|Hne].
      * rewrite lookup_insert_eq in Hm. injection Hm as ->.
        right. exists rec. split; [left|done].
      * rewrite lookup_insert_ne in Hm by done. by left.
    + right. exists rec'. split; [by right|done].
Qed.

(** Records that do not write under [k] leave its binding alone. *)
Lemma for_records_untouched field records result final k :
  for_records repr field records result = Ok final →
  (∀ rec v, rec ∈ records → ¬ writes repr field rec k v) →
  final !! k = result !! k.
Proof.
  revert result. induction records as [|rec rest IH]; intros result; simpl.
  - by intros [= <-].
  - destruct (process_record repr field result rec) as [m|] eqn:Hrec; [|done]. simpl.
    intros Hrest Hnone. rewrite (IH _ Hrest).
    + destruct (process_record_inv _ _ _ _ Hrec) as [->|(k' & v' & Hw & ->)]; [done|].
      destruct (decide (k' = k)) as [->|Hne].
      * destruct (Hnone rec v'); [left|done].
      * by rewrite lookup_insert_ne.
    + intros rec' v' Hin. apply Hnone. by right.
Qed.

End RecordFacts.

(** C7. When the loop over the records ends normally, every key of the map
    is the trimmed string form of the operator code of a record that wrote
    it, and the value under a key is the one written by the last record of
    the list that writes under this key, whatever earlier records wrote. *)
Theorem fetch_last_write_wins (repr : json → string) (field : string)
    (records : list json) (m : gmap string float) :
  extract_returns repr field records = Ok m →
  (∀ k v, m !! k = Some v → ∃ rec, rec ∈ records ∧ writes repr field rec k v)
  ∧ (∀ l1 rec l2 k v,
       records = (l1 ++ rec :: l2)%list →
       writes repr field rec k v →
       (∀ rec' v', rec' ∈ l2 → ¬ writes repr field rec' k v') →
       m !! k = Some v).
Proof.
  unfold extract_returns. intros Hm. split.
  - intros k v Hk.
    destruct (for_records_origin repr field records ∅ m k v Hm Hk) as [Hempty|Hrec]; [|done].
    by rewrite lookup_empty in Hempty.
  - intros l1 rec l2 k v -> Hw Hlater.
    rewrite for_records_app in Hm.
    destruct (for_records repr field l1 ∅) as [m1|] eqn:H1; [|done].
    simpl in Hm. rewrite (process_record_writes repr field m1 rec k v Hw) in Hm.
    simpl in Hm.
    rewrite (for_records_untouched repr field l2 _ m k Hm Hlater).
    apply lookup_insert_eq.
Qed.

Lemma fetch_last_write_wins_witness :
  extract_returns plain_repr "rendimiento" scenario_D_records
    = Ok (<["C1" := float_lit "9.5"]> (<["C1" := float_lit "7.0"]> ∅))
  ∧ (<["C1" := float_lit "9.5"]> (<["C1" := float_lit "7.0"]> (∅ : gmap string float)))
      !! "C1" = Some (float_lit "9.5").
Proof.
  assert (extract_returns plain_repr "rendimiento" scenario_D_records
          = Ok (<["C1" := float_lit "9.5"]> (<["C1" := float_lit "7.0"]> ∅))) as Hm
    by (vm_compute; reflexivity).
  split; [exact Hm|].
  apply (proj2 (fetch_last_write_wins plain_repr "rendimiento" scenario_D_records _ Hm)
           [JDict [("operador", JStr "C1"); ("rendimiento", JFloat (float_lit "7.0"))]]
           (JDict [("operador", JStr " C1 "); ("rendimiento", JFloat (float_lit "9.5"))])
           [] "C1" (float_lit "9.5")).
  - reflexivity.
  - eexists _, _. split_and!; reflexivity.
  - intros rec' v' Hin. by apply elem_of_nil in Hin.
Defined.

(** C10. A record (a mapping) whose resolved operator code is falsy, such
    as the empty string or null, changes nothing and raises nothing,
    whatever its value field holds: the fetch gives the same result as
    without this record. *)
Theorem fetch_falsy_code_skipped (repr : json → string) (field : string)
    (d : dict) (l1 l2 : list json) :
  truthy (operator_code_of d) = false →
  (∀ result, process_record repr field result (JDict d) = Ok result)
  ∧ extract_returns repr field (l1 ++ JDict d :: l2) = extract_returns repr field (l1 ++ l2).
Proof.
  intros Hfalsy. split.
  - intros result. by apply process_record_falsy_code.
  - unfold extract_returns. rewrite !for_records_app.
    destruct (for_records repr field l1 ∅) as [m1|]; [|done]. simpl.
    by rewrite process_record_falsy_code.
Qed.

Lemma fetch_falsy_code_skipped_witness :
  extract_returns plain_repr "rendimiento"
    [ JDict [("operador", JStr ""); ("rendimiento", JFloat (float_lit "8.5"))];
      JDict [("operador", JStr "C2"); ("rendimiento", JStr "7.5")] ]
  = extract_returns plain_repr "rendimiento"
      [ JDict [("operador", JStr "C2"); ("rendimiento", JStr "7.5")] ].
Proof.
  exact (proj2 (fetch_falsy_code_skipped plain_repr "rendimiento"
                  [("operador", JStr ""); ("rendimiento", JFloat (float_lit "8.5"))]
                  [] [JDict [("operador", JStr "C2"); ("rendimiento", JStr "7.5")]]
                  eq_refl)).
Defined.

(** ** The operator code of a record *)

(** C6, as the code has it. The operator code of a record is the value of
    the first of operadora, operador, codigo_operadora that is a key of the
    record, null included, and null when none is; so a record whose
    operadora is present with a falsy value such as null is skipped,
    whatever operador and codigo_operadora hold. *)
Theorem operator_code_first_present_key (repr : json → string) (field : string)
    (result : gmap string float) (d : dict) :
  operator_code_of d = default JNull (first_present_field CODE_FIELDS d)
  ∧ (∀ v, dict_lookup "operadora" d = Some v →
          truthy v = false →
          operator_code_of d = v
          ∧ process_record repr field result (JDict d) = Ok result).
Proof.
  split.
  - unfold operator_code_of, dict_get, CODE_FIELDS. simpl.
    destruct (dict_lookup "operadora" d); [done|].
    destruct (dict_lookup "operador" d); [done|].
    by destruct (dict_lookup "codigo_operadora" d).
  - intros v Hv Hfalsy.
    assert (operator_code_of d = v) as Hcode.
    { unfold operator_code_of, dict_get. by rewrite Hv. }
    split; [done|]. apply process_record_falsy_code. by rewrite Hcode.
Qed.

Lemma operator_code_first_present_key_witness :
  operator_code_of null_operadora_record = JNull
  ∧ process_record plain_repr "rendimiento" ∅ (JDict null_operadora_record) = Ok ∅.
Proof.
  exact (proj2 (operator_code_first_present_key plain_repr "rendimiento" ∅
                  null_operadora_record) JNull eq_refl eq_refl).
Defined.

(** The record is not keyed by its operador value: nothing is stored. *)
Lemma null_operadora_not_keyed_by_operador :
  extract_returns plain_repr "rendimiento" [JDict null_operadora_record] = Ok ∅
  ∧ extract_returns plain_repr "rendimiento" [JDict null_operadora_record]
      ≠ Ok {[ "C1" := float_lit "7.0" ]}.
Proof.
  assert (extract_returns plain_repr "rendimiento" [JDict null_operadora_record] = Ok ∅) as H
    by reflexivity.
  split; [exact H|]. rewrite H. intros Heq.
  assert (Hl := f_equal (fun r : outcome (gmap string float) =>
                           match r with Ok m => m !! "C1" | Raise _ => None end) Heq).
  simpl in Hl. by rewrite lookup_empty, lookup_singleton_eq in Hl.
Qed.

(** ** Records that make the fetch fail *)

(** C5. A value that [float] rejects with ValueError or TypeError is
    skipped (scenario C, first equation), but an integer too large for a
    double makes [float] raise OverflowError, which the loop does not catch:
    the whole fetch fails although the other record is valid.  An element
    that is not a mapping fails the fetch likewise, with AttributeError. *)
Theorem fetch_overflow_not_skipped (repr : json → string) :
  extract_returns repr "rendimiento"
    [ JDict [("operador", JStr "C1"); ("rendimiento", JStr "n/a")];
      JDict [("operador", JStr "C2"); ("rendimiento", JFloat (float_lit "7.5"))] ]
    = Ok {[ "C2" := float_lit "7.5" ]}
  ∧ py_float (JInt (10 ^ 400)) = Raise OverflowError
  ∧ extract_returns repr "rendimiento"
      [ huge_value_record;
        JDict [("operador", JStr "C2"); ("rendimiento", JFloat (float_lit "7.5"))] ]
    = Raise OverflowError
  ∧ extract_returns repr "rendimiento" [JInt 1; JInt 2; JInt 3] = Raise AttributeError.
Proof.
  split_and!; vm_compute; reflexivity.
Qed.

(** ** Aggregation *)

(** C4. Aggregation yields one record per directory entry, in directory
    order; each field is the lookup of the entry's code in the respective
    map, absent when the code is not a key; every row carries a directory
    name, so a code of a map that matches no entry makes no row. *)
Theorem aggregate_one_record_per_operator (directory : list (string * string))
    (short_data medium_data long_data : gmap string float) :
  length (aggregate directory short_data medium_data long_data) = length directory
  ∧ map operator (aggregate directory short_data medium_data long_data) = map fst directory
  ∧ (∀ i name code,
       directory !! i = Some (name, code) →
       aggregate directory short_data medium_data long_data !! i
         = Some {| operator := name;
                   short := short_data !! code;
                   medium := medium_data !! code;
                   long := long_data !! code |})
  ∧ (∀ i name code rd,
       directory !! i = Some (name, code) →
       aggregate directory short_data medium_data long_data !! i = Some rd →
       (code ∉ dom short_data → short rd = None)
       ∧ (code ∉ dom medium_data → medium rd = None)
       ∧ (code ∉ dom long_data → long rd = None))
  ∧ (∀ rd, rd ∈ aggregate directory short_data medium_data long_data →
       ∃ code, (operator rd, code) ∈ directory).
Proof.
  unfold aggregate. split_and!.
  - apply length_map.
  - rewrite map_map. apply map_ext. by intros [name code].
  - intros i name code Hi. change (@map) with (@fmap list _).
    rewrite list_lookup_fmap, Hi. done.
  - intros i name code rd Hi. change (@map) with (@fmap list _).
    rewrite list_lookup_fmap, Hi. simpl. intros [= <-]. simpl.
    split_and!; intros Hdom; by apply not_elem_of_dom.
  - intros rd. change (@map) with (@fmap list _).
    intros ([name code] & -> & Hin)%list_elem_of_fmap. by exists code.
Qed.

(** ** The whole run *)

Section RunFacts.

Variable repr : json → string.
Variable network : string → outcome response.
Variable argsort : list float → list nat.

Lemma fetch_known_horizon horizon log :
  horizon ∈ HORIZONS →
  fetch_returns_for_horizon repr network horizon log
    = (horizon_outcome repr network horizon, (log ++ [EGet (url_of horizon)])%list).
Proof.
  intros Hin. unfold horizon_outcome, url_of, HORIZONS in *.
  repeat (apply elem_of_cons in Hin as [->|Hin];
          [by erewrite !fetch_unfold by reflexivity|]).
  by apply elem_of_nil in Hin.
Qed.

Lemma main_unfold log :
  main repr network argsort log =
    match collect_returns repr network log with
    | (Ok l, log') =>
        (match create_ranking argsort l with
         | Ok ranking_df => Ok (Some ranking_df)
         | Raise e => Raise e
         end, log')
    | (Raise e, log') => (Ok None, (log' ++ [EPrint (failure_text e) e])%list)
    end.
Proof.
  unfold main, io_try, mbind, IO_bind, mret, IO_ret, lift.
  destruct (collect_returns repr network log) as [[l|e] log'].
  { by destruct (create_ranking argsort l). }
  unfold failure_text. simpl. unfold emit.
  destruct (issubclass e HTTPError); [done|]. simpl.
  by destruct (issubclass e KeyError).
Qed.

Lemma collect_returns_unfold log :
  collect_returns repr network log =
    match horizon_outcome repr network "short" with
    | Raise e => (Raise e, (log ++ [EGet (url_of "short")])%list)
    | Ok short_data =>
        match horizon_outcome repr network "medium" with
        | Raise e =>
            (Raise e, (log ++ [EGet (url_of "short"); ESleep CALL_DELAY_SEC;
                               EGet (url_of "medium")])%list)
        | Ok medium_data =>
            match horizon_outcome repr network "long" with
            | Raise e =>
                (Raise e, (log ++ [EGet (url_of "short"); ESleep CALL_DELAY_SEC;
                                   EGet (url_of "medium"); ESleep CALL_DELAY_SEC;
                                   EGet (url_of "long")])%list)
            | Ok long_data =>
                (Ok (aggregate OPERATORS short_data medium_data long_data),
                 (log ++ [EGet (url_of "short"); ESleep CALL_DELAY_SEC;
                          EGet (url_of "medium"); ESleep CALL_DELAY_SEC;
                          EGet (url_of "long")])%list)
            end
        end
    end.
Proof.
  unfold collect_returns, mbind, IO_bind, mret, IO_ret, sleep, emit.
  rewrite fetch_known_horizon by (unfold HORIZONS; repeat constructor).
  destruct (horizon_outcome repr network "short"); [|done].
  rewrite fetch_known_horizon by (unfold HORIZONS; repeat constructor).
  destruct (horizon_outcome repr network "medium"); [|by rewrite <- !app_assoc].
  rewrite fetch_known_horizon by (unfold HORIZONS; repeat constructor).
  destruct (horizon_outcome repr network "long"); by rewrite <- !app_assoc.
Qed.

End RunFacts.

(** C8. If the fetch of any of the three horizons raises, whatever the
    error, the run yields no ranking: it returns after printing one failure
    message.  In every case the run either yields the ranking of the
    complete aggregation, all three fetches having succeeded and nothing
    being printed, or yields no ranking and ends with a failure message. *)
Theorem run_all_or_nothing (repr : json → string) (network : string → outcome response)
    (argsort : list float → list nat) (log : list event) (horizon : string) (e : exn) :
  horizon ∈ HORIZONS →
  horizon_outcome repr network horizon = Raise e →
  ((main repr network argsort log).1 = Ok None
   ∧ ∃ log' e', (main repr network argsort log).2 = (log' ++ [EPrint (failure_text e') e'])%list
                ∧ Forall (fun ev => ∀ text err, ev ≠ EPrint text err) (drop (length log) log'))
  ∧ (∀ net, let run := main repr net argsort log in
       (∃ short_data medium_data long_data,
           horizon_outcome repr net "short" = Ok short_data
           ∧ horizon_outcome repr net "medium" = Ok medium_data
           ∧ horizon_outcome repr net "long" = Ok long_data
           ∧ (∃ ranking_df,
                 create_ranking argsort (aggregate OPERATORS short_data medium_data long_data)
                   = Ok ranking_df
                 ∧ run.1 = Ok (Some ranking_df))
           ∧ Forall (fun ev => ∀ text err, ev ≠ EPrint text err) (drop (length log) run.2))
       ∨ (run.1 = Ok None
          ∧ ∃ h err, h ∈ HORIZONS ∧ horizon_outcome repr net h = Raise err
                     ∧ last run.2 = Some (EPrint (failure_text err) err))).
Proof.
  intros Hin Hfail. split.
  - rewrite main_unfold, collect_returns_unfold. unfold HORIZONS in Hin.
    assert (∀ t : list event, Forall (fun ev => ∀ text err, ev ≠ EPrint text err) t →
            Forall (fun ev => ∀ text err, ev ≠ EPrint text err)
                   (drop (length log) (log ++ t))) as Hdrop.
    { intros t Ht. by rewrite drop_app_length. }
    destruct (horizon_outcome repr network "short") as [s|es] eqn:Hs.
    2: { split; [done|]. eexists _, es. split; [done|]. apply Hdrop.
         repeat constructor; done. }
    destruct (horizon_outcome repr network "medium") as [m|em] eqn:Hm.
    2: { split; [done|]. eexists _, em. split; [done|]. apply Hdrop.
         repeat constructor; done. }
    destruct (horizon_outcome repr network "long") as [l|el] eqn:Hl.
    2: { split; [done|]. eexists _, el. split; [done|]. apply Hdrop.
         repeat constructor; done. }
    exfalso. repeat (apply elem_of_cons in Hin as [->|Hin]; [congruence|]).
    by apply elem_of_nil in Hin.
  - intros net run. subst run. rewrite main_unfold, collect_returns_unfold.
    destruct (horizon_outcome repr net "short") as [s|es] eqn:Hs.
    2: { right. split; [done|]. exists "short", es. unfold HORIZONS.
         split_and!; [repeat constructor|done|]. simpl. by rewrite last_snoc. }
    destruct (horizon_outcome repr net "medium") as [m|em] eqn:Hm.
    2: { right. split; [done|]. exists "medium", em. unfold HORIZONS.
         split_and!; [repeat constructor|done|]. simpl. by rewrite last_snoc. }
    destruct (horizon_outcome repr net "long") as [l|el] eqn:Hl.
    2: { right. split; [done|]. exists "long", el. unfold HORIZONS.
         split_and!; [repeat constructor|done|]. simpl. by rewrite last_snoc. }
    left. exists s, m, l. split_and!; try done.
    + eexists. split; reflexivity.
    + simpl. rewrite drop_app_length. repeat constructor; done.
Qed.

Lemma run_all_or_nothing_witness :
  (main plain_repr medium_fails_network stable_argsort []).1 = Ok None.
Proof.
  exact (proj1 (proj1 (run_all_or_nothing plain_repr medium_fails_network stable_argsort []
                         "medium" KeyError ltac:(unfold HORIZONS; repeat constructor) eq_refl))).
Defined.

(** ** The order on floats *)

Ltac float_cases :=
  unfold Float.ltb, Float.leb, Float.eqb, SFltb, SFleb, SFeqb, SFcompare, not_nan, is_nan;
  intros;
  repeat match goal with
         | x : float |- _ => destruct x as [[]|[]| |[] ? ?]
         | x : spec_float |- _ => destruct x as [[]|[]| |[] ? ?]
         end;
  try discriminate; try reflexivity;
  change (Pos.compare_cont Eq) with Pos.compare in *;
  repeat match goal with
         | H : context [(?a ?= ?b)%Z] |- _ => destruct (Z.compare_spec a b)
         | |- context [(?a ?= ?b)%Z] => destruct (Z.compare_spec a b)
         | H : context [(?a ?= ?b)%positive] |- _ => destruct (Pos.compare_spec a b)
         | |- context [(?a ?= ?b)%positive] => destruct (Pos.compare_spec a b)
         end;
  simpl in *; try discriminate; try reflexivity; try lia.

Lemma ltb_asym x y : Float.ltb x y = true → Float.ltb y x = false.
Proof. float_cases. Qed.

Lemma ltb_false_leb x y :
  not_nan x → not_nan y → Float.ltb x y = false → Float.leb y x = true.
Proof. float_cases. Qed.

Lemma leb_ltb_false x y : Float.leb x y = true → Float.ltb y x = false.
Proof. float_cases. Qed.

Lemma leb_false_ltb_false x y : Float.leb x y = false → Float.ltb x y = false.
Proof. float_cases. Qed.

Lemma leb_false_ltb x y :
  not_nan x → not_nan y → Float.leb x y = false → Float.ltb y x = true.
Proof. float_cases. Qed.

Lemma eqb_sym x y : Float.eqb x y = Float.eqb y x.
Proof. float_cases. Qed.

Lemma not_ltb_trans x y z :
  not_nan x → not_nan y → not_nan z →
  Float.ltb y x = false → Float.ltb z y = false → Float.ltb z x = false.
Proof. float_cases. Qed.

Lemma ltb_not_ltb_neq x y z :
  not_nan x → not_nan y → not_nan z →
  Float.ltb x y = true → Float.ltb z y = false → Float.eqb x z = false.
Proof. float_cases. Qed.

Lemma ltb_neq x y : Float.ltb x y = true → Float.eqb x y = false.
Proof. float_cases. Qed.

(** ** Lists read through positions *)

Section ListFacts.
Context {A B : Type}.
Local Open Scope list_scope.

Lemma omap_lookup_seq_app (l1 l2 : list A) :
  omap (fun i => (l1 ++ l2) !! i) (seq (length l1) (length l2)) = l2.
Proof.
  revert l1. induction l2 as [|x l2 IH]; intros l1; [done|].
  simpl. rewrite list_lookup_middle by done. f_equal.
  replace (S (length l1)) with (length (l1 ++ [x])) by (rewrite length_app; simpl; lia).
  rewrite (cons_middle x l1 l2), app_assoc. apply IH.
Qed.

Lemma omap_lookup_seq (l : list A) :
  omap (fun i => l !! i) (seq 0 (length l)) = l.
Proof. apply (omap_lookup_seq_app [] l). Qed.

Lemma omap_lookup_Permutation (l : list A) (p : list nat) :
  p ≡ₚ seq 0 (length l) → omap (fun i => l !! i) p ≡ₚ l.
Proof. intros ->. by rewrite omap_lookup_seq. Qed.

Lemma StronglySorted_all (R : relation A) (l : list A) :
  (∀ x y, x ∈ l → y ∈ l → R x y) → StronglySorted R l.
Proof.
  induction l as [|x l IH]; intros HR; constructor.
  - apply IH. intros y z Hy Hz. apply HR; by right.
  - apply Forall_forall. intros y Hy. apply HR; [left|by right].
Qed.

Lemma StronglySorted_snoc (R : relation A) (l : list A) (x : A) :
  StronglySorted R l → Forall (fun y => R y x) l → StronglySorted R (l ++ [x]).
Proof.
  intros Hl Hx. apply StronglySorted_app_2; [|done|repeat constructor].
  intros x1 x2 H1 ->%list_elem_of_singleton.
  by eapply Forall_forall in Hx.
Qed.

Lemma StronglySorted_rev (R : relation A) (l : list A) :
  StronglySorted R l → StronglySorted (flip R) (rev l).
Proof.
  induction 1 as [|x l Hl IH Hx]; simpl; [constructor|].
  apply StronglySorted_snoc; [done|].
  apply Forall_forall. intros y Hy%list_elem_of_In%in_rev%list_elem_of_In.
  by eapply Forall_forall in Hx.
Qed.

Lemma StronglySorted_filter (R : relation A) (P : A → Prop) `{∀ x, Decision (P x)}
    (l : list A) :
  StronglySorted R l → StronglySorted R (filter P l).
Proof.
  induction 1 as [|x l Hl IH Hx]; [constructor|].
  rewrite filter_cons. destruct (decide (P x)); [|done].
  constructor; [done|]. apply Forall_forall.
  intros y [_ Hy]%list_elem_of_filter. by eapply Forall_forall in Hx.
Qed.

Lemma StronglySorted_lookup (R : relation A) (l : list A) i j x y :
  StronglySorted R l → l !! i = Some x → l !! j = Some y → i < j → R x y.
Proof.
  intros Hl. revert i j. induction Hl as [|z l Hl IH Hz]; intros i j Hi Hj Hlt; [done|].
  destruct j as [|j]; [lia|]. destruct i as [|i]; simpl in *.
  - injection Hi as ->. eapply Forall_forall in Hz; [done|].
    by eapply list_elem_of_lookup_2.
  - eapply IH; [done|done|lia].
Qed.

Lemma StronglySorted_weaken (R1 R2 : relation A) (l : list A) :
  StronglySorted R1 l →
  (∀ x y, x ∈ l → y ∈ l → R1 x y → R2 x y) →
  StronglySorted R2 l.
Proof.
  induction 1 as [|x l Hl IH Hx]; intros HR; constructor.
  - apply IH. intros y z Hy Hz. apply HR; by right.
  - apply Forall_forall. intros y Hy. apply HR; [left|by right|].
    by eapply Forall_forall in Hx.
Qed.

Lemma StronglySorted_omap (R1 : relation A) (R2 : relation B) (f : A → option B)
    (l : list A) :
  StronglySorted R1 l →
  (∀ x y x' y', x ∈ l → y ∈ l → R1 x y → f x = Some x' → f y = Some y' → R2 x' y') →
  StronglySorted R2 (omap f l).
Proof.
  induction 1 as [|x l Hl IH Hx]; intros Hf; simpl; [constructor|].
  assert (StronglySorted R2 (omap f l)) as Hrest.
  { apply IH. intros y z y' z' Hy Hz. apply Hf; by right. }
  destruct (f x) as [x'|] eqn:Hfx; [|done].
  constructor; [done|]. apply Forall_forall.
  intros y' (y & Hy & Hfy)%list_elem_of_omap.
  eapply (Hf x y); [left|by right| |done|done].
  by eapply Forall_forall in Hx.
Qed.

End ListFacts.

Lemma StronglySorted_seq (j n : nat) : StronglySorted lt (seq j n).
Proof.
  revert j. induction n as [|n IH]; intros j; simpl; constructor; [apply IH|].
  apply Forall_forall. intros x Hx%elem_of_seq. lia.
Qed.

(** ** Index sorts and the ranking order *)

Section NargsortFacts.
Local Open Scope list_scope.

Variable argsort : list float → list nat.
Variable items : list (option float).

Lemma nargsort_descending :
  nargsort argsort items false na_last = present_positions argsort items ++ nan_idx items.
Proof. reflexivity. Qed.

Lemma mask_at_false i :
  mask_at items i = false →
  ∃ f, items !! i = Some (Some f) ∧ is_nan f = false ∧ value_at items i = f.
Proof.
  unfold mask_at, value_at. destruct (items !! i) as [[f|]|]; try done.
  simpl. intros Hf. by exists f.
Qed.

Lemma mask_at_lookup i v : items !! i = Some v → mask_at items i = isna v.
Proof. unfold mask_at. by intros ->. Qed.

Lemma value_at_lookup i v : items !! i = Some v → value_at items i = default nan v.
Proof. unfold value_at. intros ->. by destruct v. Qed.

Lemma non_nan_idx_sorted : StronglySorted lt (non_nan_idx items).
Proof. apply StronglySorted_filter, StronglySorted_seq. Qed.

Lemma nan_idx_sorted : StronglySorted lt (nan_idx items).
Proof. apply StronglySorted_filter, StronglySorted_seq. Qed.

Lemma rev_non_nan_idx_decreasing : StronglySorted (flip lt) (rev (non_nan_idx items)).
Proof. apply StronglySorted_rev, non_nan_idx_sorted. Qed.

Lemma non_nan_idx_mask i : i ∈ non_nan_idx items → mask_at items i = false.
Proof. intros Hi. by apply list_elem_of_filter in Hi as [? _]. Qed.

Lemma nan_idx_mask i : i ∈ nan_idx items → mask_at items i = true.
Proof. intros Hi. by apply list_elem_of_filter in Hi as [? _]. Qed.

Lemma rev_non_nan_idx_mask k i :
  rev (non_nan_idx items) !! k = Some i → mask_at items i = false.
Proof.
  intros Hk%list_elem_of_lookup_2%list_elem_of_In%in_rev%list_elem_of_In.
  by apply non_nan_idx_mask.
Qed.

Lemma non_nans_not_nan : Forall not_nan (rev (non_nans items)).
Proof.
  apply Forall_forall. intros x Hx%list_elem_of_In%in_rev%list_elem_of_In.
  apply (list_elem_of_fmap (value_at items)) in Hx as (i & -> & Hi).
  apply non_nan_idx_mask in Hi.
  destruct (mask_at_false i Hi) as (f & _ & Hf & ->). done.
Qed.

Lemma present_positions_elem i :
  i ∈ present_positions argsort items → i ∈ non_nan_idx items.
Proof.
  unfold present_positions. intros Hi%list_elem_of_In%in_rev%list_elem_of_In.
  apply list_elem_of_omap in Hi as (k & _ & Hk).
  apply list_elem_of_lookup_2 in Hk.
  by apply list_elem_of_In, in_rev, list_elem_of_In in Hk.
Qed.

Lemma present_positions_mask i :
  i ∈ present_positions argsort items → mask_at items i = false.
Proof. intros Hi%present_positions_elem. by apply non_nan_idx_mask. Qed.

Lemma rev_non_nans_nth k i :
  rev (non_nan_idx items) !! k = Some i →
  nth k (rev (non_nans items)) nan = value_at items i.
Proof.
  intros Hk. unfold non_nans. rewrite <- map_rev.
  apply nth_lookup_Some with (d := nan).
  change (@map) with (@fmap list _).
  by rewrite list_lookup_fmap, Hk.
Qed.

Lemma present_positions_Permutation :
  index_sort argsort → present_positions argsort items ≡ₚ non_nan_idx items.
Proof.
  intros [Hperm _]. unfold present_positions.
  rewrite <- (Permutation_rev (omap _ _)).
  rewrite omap_lookup_Permutation; [by rewrite <- Permutation_rev|].
  rewrite Hperm. unfold non_nans. by rewrite !length_rev, length_map.
Qed.

Lemma nargsort_Permutation :
  index_sort argsort → nargsort argsort items false na_last ≡ₚ seq 0 (length items).
Proof.
  intros Hsort. rewrite nargsort_descending, (present_positions_Permutation Hsort).
  unfold non_nan_idx, nan_idx.
  rewrite (list_filter_iff (fun i => mask_at items i = false)
                           (fun i => ¬ mask_at items i = true)).
  - rewrite Permutation_app_comm. apply filter_app_complement.
  - intros i. by destruct (mask_at items i).
Qed.

(** Positions come out in ranking order. *)
Lemma nargsort_ranked :
  index_sort argsort →
  StronglySorted
    (fun i j => ∀ vi vj, items !! i = Some vi → items !! j = Some vj → sorts_before vi vj)
    (nargsort argsort items false na_last).
Proof.
  intros Hsort. rewrite nargsort_descending. apply StronglySorted_app_2.
  - intros i j _ Hj%nan_idx_mask vi vj _ Hvj. left.
    by rewrite <- (mask_at_lookup j vj).
  - apply (StronglySorted_rev (flip _)).
    eapply StronglySorted_omap;
      [exact (index_sort_ordered _ Hsort _ non_nans_not_nan)|].
    intros a b i j _ _ Hab Hi Hj vj vi Hvj Hvi. right.
    pose proof (rev_non_nan_idx_mask _ _ Hi) as Hmi.
    pose proof (rev_non_nan_idx_mask _ _ Hj) as Hmj.
    unfold ascending_at in Hab.
    rewrite (rev_non_nans_nth a i Hi), (rev_non_nans_nth b j Hj) in Hab.
    rewrite (mask_at_lookup i vi Hvi) in Hmi. rewrite (mask_at_lookup j vj Hvj) in Hmj.
    rewrite (value_at_lookup i vi Hvi), (value_at_lookup j vj Hvj) in Hab.
    split_and!; [done|done|].
    apply ltb_false_leb; [| |done].
    + destruct vj; [done|discriminate].
    + destruct vi; [done|discriminate].
  - apply StronglySorted_all. intros i j _ Hj%nan_idx_mask vi vj _ Hvj. left.
    by rewrite <- (mask_at_lookup j vj).
Qed.

(** With a stable index sort, positions of equal keys come out in
    increasing order. *)
Lemma nargsort_stable :
  stable_index_sort argsort →
  StronglySorted
    (fun i j => ∀ vi vj, items !! i = Some vi → items !! j = Some vj →
                         ties_with vi vj → i < j)
    (nargsort argsort items false na_last).
Proof.
  intros Hstable. rewrite nargsort_descending. apply StronglySorted_app_2.
  - intros i j Hi%present_positions_mask Hj%nan_idx_mask vi vj Hvi Hvj Hsame.
    rewrite (mask_at_lookup i vi Hvi) in Hi. rewrite (mask_at_lookup j vj Hvj) in Hj.
    destruct Hsame as [[? ?]|(? & ? & ?)]; congruence.
  - apply (StronglySorted_rev (flip _)).
    eapply StronglySorted_omap; [exact (Hstable _ non_nans_not_nan)|].
    intros a b i j Ha Hb Hab Hi Hj vj vi Hvj Hvi Hsame.
    pose proof (rev_non_nan_idx_mask _ _ Hi) as Hmi.
    rewrite (mask_at_lookup i vi Hvi) in Hmi.
    unfold ties_in_order in Hab.
    rewrite (rev_non_nans_nth a i Hi), (rev_non_nans_nth b j Hj) in Hab.
    rewrite (value_at_lookup i vi Hvi), (value_at_lookup j vj Hvj) in Hab.
    destruct Hsame as [[_ ?]|(_ & _ & Heq)]; [congruence|].
    rewrite eqb_sym in Heq. specialize (Hab Heq).
    exact (StronglySorted_lookup _ _ a b i j rev_non_nan_idx_decreasing Hi Hj Hab).
  - eapply StronglySorted_weaken; [apply nan_idx_sorted|]. auto.
Qed.

(** Whatever the index sort, positions of missing keys come out in
    increasing order, after all the others. *)
Lemma nargsort_missing_in_order :
  StronglySorted
    (fun i j => mask_at items i = true → mask_at items j = true ∧ i < j)
    (nargsort argsort items false na_last).
Proof.
  rewrite nargsort_descending. apply StronglySorted_app_2.
  - intros i j Hi%present_positions_mask _ Hi'. congruence.
  - apply StronglySorted_all. intros i j Hi%present_positions_mask _ Hi'. congruence.
  - eapply StronglySorted_weaken; [apply nan_idx_sorted|].
    intros i j _ Hj%nan_idx_mask Hlt _. done.
Qed.

End NargsortFacts.

(** ** The two insertion sorts are index sorts *)

Section InsertionSort.
Local Open Scope list_scope.

Variable before : float → float → bool.
Hypothesis before_true : ∀ x y, before x y = true → Float.ltb y x = false.
Hypothesis before_false : ∀ x y, before x y = false → Float.ltb x y = false.

Variable xs : list float.
Hypothesis xs_not_nan : Forall not_nan xs.

Lemma nth_not_nan i : i < length xs → not_nan (nth i xs nan).
Proof.
  intros Hi. eapply Forall_forall; [exact xs_not_nan|].
  apply list_elem_of_In, nth_In, Hi.
Qed.

Lemma insert_index_Permutation i placed :
  insert_index before xs i placed ≡ₚ i :: placed.
Proof.
  induction placed as [|j rest IH]; simpl; [done|].
  destruct (before _ _); [done|]. rewrite IH. apply perm_swap.
Qed.

Lemma insertion_fold_Permutation l acc :
  foldl (fun placed i => insert_index before xs i placed) acc l ≡ₚ l ++ acc.
Proof.
  revert acc. induction l as [|i l IH]; intros acc; simpl; [done|].
  rewrite IH, insert_index_Permutation. by rewrite Permutation_middle.
Qed.

Lemma insertion_argsort_Permutation :
  insertion_argsort before xs ≡ₚ seq 0 (length xs).
Proof.
  unfold insertion_argsort. rewrite insertion_fold_Permutation. by rewrite app_nil_r.
Qed.

Lemma insert_index_ordered i placed :
  i < length xs →
  Forall (fun k => k < length xs) placed →
  StronglySorted (ascending_at xs) placed →
  StronglySorted (ascending_at xs) (insert_index before xs i placed).
Proof.
  intros Hi. induction placed as [|j rest IH]; intros Hlen Hsorted; simpl.
  { repeat constructor. }
  apply Forall_cons in Hlen as [Hj Hlen].
  apply StronglySorted_inv in Hsorted as [Hrest Hjrest].
  destruct (before _ _) eqn:Hb.
  - constructor; [by constructor|]. apply before_true in Hb.
    constructor; [done|]. apply Forall_forall. intros k Hk.
    pose proof (proj1 (Forall_forall _ _) Hjrest k Hk) as Hjk.
    pose proof (proj1 (Forall_forall _ _) Hlen k Hk) as Hklen.
    unfold ascending_at in *.
    apply (not_ltb_trans _ (nth j xs nan)); try done; by apply nth_not_nan.
  - constructor; [by apply IH|]. apply before_false in Hb.
    apply Forall_forall. intros k Hk.
    rewrite insert_index_Permutation in Hk. apply elem_of_cons in Hk as [->|Hk]; [done|].
    by eapply Forall_forall in Hjrest.
Qed.

Lemma insertion_fold_ordered l acc :
  Forall (fun k => k < length xs) l →
  Forall (fun k => k < length xs) acc →
  StronglySorted (ascending_at xs) acc →
  StronglySorted (ascending_at xs)
    (foldl (fun placed i => insert_index before xs i placed) acc l).
Proof.
  revert acc. induction l as [|i l IH]; intros acc Hl Hacc Hsorted; simpl; [done|].
  apply Forall_cons in Hl as [Hi Hl].
  apply IH; [done| |by apply insert_index_ordered].
  rewrite insert_index_Permutation. by constructor.
Qed.

Lemma insertion_argsort_ordered :
  StronglySorted (ascending_at xs) (insertion_argsort before xs).
Proof.
  apply insertion_fold_ordered; [|constructor|constructor].
  apply Forall_forall. intros k Hk%elem_of_seq. lia.
Qed.

End InsertionSort.

Lemma stable_argsort_index_sort : index_sort stable_argsort.
Proof.
  split; intros xs.
  - apply insertion_argsort_Permutation.
  - intros Hxs. apply insertion_argsort_ordered; [apply ltb_asym|done|done].
Qed.

Lemma unstable_argsort_index_sort : index_sort unstable_argsort.
Proof.
  split; intros xs.
  - apply insertion_argsort_Permutation.
  - intros Hxs.
    apply insertion_argsort_ordered; [apply leb_ltb_false|apply leb_false_ltb_false|done].
Qed.

Section InsertionStable.
Local Open Scope list_scope.

Variable xs : list float.
Hypothesis xs_not_nan : Forall not_nan xs.

Lemma insert_index_in_order i placed :
  i < length xs →
  Forall (fun k => k < i) placed →
  StronglySorted (ascending_at xs) placed →
  StronglySorted (ties_in_order xs) placed →
  StronglySorted (ties_in_order xs) (insert_index Float.ltb xs i placed).
Proof.
  intros Hi. induction placed as [|j rest IH]; intros Hlt Hsorted Hstable; simpl.
  { repeat constructor. }
  apply Forall_cons in Hlt as [Hj Hlt].
  apply StronglySorted_inv in Hsorted as [Hrest Hjrest].
  apply StronglySorted_inv in Hstable as [Hrest' Hjrest'].
  destruct (Float.ltb _ _) eqn:Hb.
  - constructor; [by constructor|].
    constructor.
    + intros Heq. apply ltb_neq in Hb. congruence.
    + apply Forall_forall. intros k Hk Heq. exfalso.
      pose proof (proj1 (Forall_forall _ _) Hjrest k Hk) as Hjk.
      pose proof (proj1 (Forall_forall _ _) Hlt k Hk) as Hki.
      unfold ascending_at in Hjk. cbv beta in Hki, Hj.
      rewrite (ltb_not_ltb_neq (nth i xs nan) (nth j xs nan) (nth k xs nan)) in Heq;
        [done|..]; try done; apply nth_not_nan; try done; lia.
  - constructor; [by apply IH|].
    apply Forall_forall. intros k Hk.
    rewrite insert_index_Permutation in Hk. apply elem_of_cons in Hk as [->|Hk].
    + by intros _.
    + by eapply Forall_forall in Hjrest'.
Qed.

Lemma insertion_fold_in_order n s acc :
  (s + n ≤ length xs)%nat →
  Forall (fun k => k < s) acc →
  StronglySorted (ascending_at xs) acc →
  StronglySorted (ties_in_order xs) acc →
  StronglySorted (ties_in_order xs)
    (foldl (fun placed i => insert_index Float.ltb xs i placed) acc (seq s n)).
Proof.
  revert s acc. induction n as [|n IH]; intros s acc Hlen Hacc Hsorted Hstable; simpl; [done|].
  apply IH; [lia| | |].
  - rewrite insert_index_Permutation. constructor; [lia|].
    eapply Forall_impl; [exact Hacc|]. intros k Hk. simpl in Hk. lia.
  - apply insert_index_ordered; [apply ltb_asym|done|done|lia| |done].
    eapply Forall_impl; [exact Hacc|]. intros k Hk. simpl in Hk. lia.
  - apply insert_index_in_order; [lia|done|done|done].
Qed.

Lemma stable_argsort_in_order : StronglySorted (ties_in_order xs) (stable_argsort xs).
Proof.
  apply insertion_fold_in_order; [simpl; lia|constructor|constructor|constructor].
Qed.

End InsertionStable.

Lemma stable_argsort_stable : stable_index_sort stable_argsort.
Proof. intros xs Hxs. by apply stable_argsort_in_order. Qed.

(** ** Sorting a frame *)

Section FrameFacts.
Local Open Scope list_scope.

Variable argsort : list float → list nat.
Variable by_column : Row → option float.
Variable rows : list Row.

Lemma enumerate_lookup i r :
  enumerate rows !! i = Some r ↔ r.1 = i ∧ rows !! i = Some r.2.
Proof.
  unfold enumerate. rewrite list_lookup_imap_Some. split.
  - by intros (y & Hy & ->).
  - destruct r as [j r]. simpl. intros [-> Hr]. by exists r.
Qed.

Lemma enumerate_rows : map snd (enumerate rows) = rows.
Proof.
  unfold enumerate. change (@map) with (@fmap list _).
  rewrite fmap_imap. rewrite (imap_ext _ (const id)) by done.
  rewrite imap_const. apply list_fmap_id.
Qed.

Lemma frame_keys_lookup i r :
  enumerate rows !! i = Some r →
  map (fun r => by_column r.2) (enumerate rows) !! i = Some (by_column r.2).
Proof.
  intros Hr. change (@map) with (@fmap list _). by rewrite list_lookup_fmap, Hr.
Qed.

Lemma sort_values_Permutation :
  index_sort argsort →
  sort_values argsort (enumerate rows) by_column false na_last ≡ₚ enumerate rows.
Proof.
  intros Hsort. unfold sort_values, take_rows.
  apply omap_lookup_Permutation.
  rewrite (nargsort_Permutation argsort _ Hsort). by rewrite length_map.
Qed.

(** The label of a row of the sorted frame is its position in [rows]. *)
Lemma sort_values_labels r :
  r ∈ sort_values argsort (enumerate rows) by_column false na_last →
  rows !! r.1 = Some r.2.
Proof.
  unfold sort_values, take_rows.
  intros (i & _ & Hi)%list_elem_of_omap.
  apply enumerate_lookup in Hi as [<- Hr]. done.
Qed.

Lemma sort_values_ranked :
  index_sort argsort →
  StronglySorted (fun r1 r2 => sorts_before (by_column r1.2) (by_column r2.2))
    (sort_values argsort (enumerate rows) by_column false na_last).
Proof.
  intros Hsort. unfold sort_values, take_rows.
  eapply StronglySorted_omap; [exact (nargsort_ranked argsort _ Hsort)|].
  intros i j r1 r2 _ _ Hij H1 H2. apply Hij; by apply frame_keys_lookup.
Qed.

Lemma sort_values_stable :
  stable_index_sort argsort →
  StronglySorted
    (fun r1 r2 => ties_with (by_column r1.2) (by_column r2.2) → r1.1 < r2.1)
    (sort_values argsort (enumerate rows) by_column false na_last).
Proof.
  intros Hstable. unfold sort_values, take_rows.
  eapply StronglySorted_omap; [exact (nargsort_stable argsort _ Hstable)|].
  intros i j r1 r2 _ _ Hij H1 H2 Hsame.
  apply enumerate_lookup in H1 as H1'. apply enumerate_lookup in H2 as H2'.
  destruct H1' as [-> _], H2' as [-> _].
  eapply Hij; [by apply frame_keys_lookup|by apply frame_keys_lookup|done].
Qed.

Lemma sort_values_missing_in_order :
  StronglySorted
    (fun r1 r2 => isna (by_column r1.2) = true →
                  isna (by_column r2.2) = true ∧ r1.1 < r2.1)
    (sort_values argsort (enumerate rows) by_column false na_last).
Proof.
  unfold sort_values, take_rows.
  eapply StronglySorted_omap; [exact (nargsort_missing_in_order argsort _)|].
  intros i j r1 r2 _ _ Hij H1 H2.
  apply enumerate_lookup in H1 as H1'. apply enumerate_lookup in H2 as H2'.
  destruct H1' as [<- _], H2' as [<- _].
  rewrite <- (mask_at_lookup _ _ _ (frame_keys_lookup _ _ H1)).
  rewrite <- (mask_at_lookup _ _ _ (frame_keys_lookup _ _ H2)).
  exact Hij.
Qed.

End FrameFacts.

Lemma create_ranking_nonempty argsort returns :
  returns ≠ [] →
  create_ranking argsort returns
    = Ok (sort_values argsort (make_frame (map as_dict returns)) Long_term false na_last).
Proof. by destruct returns. Qed.

Lemma cell_cases v : cell v = None ∨ ∃ x, cell v = Some x ∧ is_nan x = false.
Proof.
  unfold cell. destruct v as [x|]; simpl; [|by left].
  destruct (is_nan x) eqn:Hx; [by left|right; by exists x].
Qed.

Lemma sorts_before_ranks_before v1 v2 :
  sorts_before (cell v1) (cell v2) → ranks_before (cell v1) (cell v2).
Proof.
  destruct (cell_cases v1) as [->|(x & -> & Hx)], (cell_cases v2) as [->|(y & -> & Hy)];
    simpl; try done.
  - intros [?|(? & _)]; simpl in *; congruence.
  - intros [?|(_ & _ & ?)]; simpl in *; [congruence|done].
Qed.

Lemma same_key_ties_with v1 v2 : same_key v1 v2 → ties_with v1 v2.
Proof.
  destruct v1 as [x|], v2 as [y|]; simpl; try done.
  - intros Heq. right. split_and!; [| |done]; simpl.
    + by destruct x.
    + destruct y; try done. by destruct x as [| | |[] ? ?].
  - intros _. by left.
Qed.

Lemma isna_cell v : isna (cell v) = isna v.
Proof. unfold cell. by destruct (isna v) eqn:Hv. Qed.

Lemma cell_number v : isna v = false → cell v = v.
Proof. unfold cell. by intros ->. Qed.

(** ** The ranking *)

Section RankingFacts.

Variable argsort : list float → list nat.
Variable rows : list Row.

Lemma ranking_row_cells r :
  r ∈ sort_values argsort (make_frame rows) Long_term false na_last →
  ∃ r0, rows !! r.1 = Some r0 ∧ r.2 = frame_row r0.
Proof.
  intros Hr%sort_values_labels.
  change (@map) with (@fmap list _) in Hr. rewrite list_lookup_fmap in Hr.
  destruct (rows !! r.1) as [r0|]; [|done]. simpl in Hr. injection Hr as <-.
  by exists r0.
Qed.

Lemma ranking_ranked :
  index_sort argsort →
  StronglySorted (fun r1 r2 => ranks_before (Long_term r1.2) (Long_term r2.2))
    (sort_values argsort (make_frame rows) Long_term false na_last).
Proof.
  intros Hsort. eapply StronglySorted_weaken; [by apply sort_values_ranked|].
  intros r1 r2 (r1' & _ & ->)%ranking_row_cells (r2' & _ & ->)%ranking_row_cells.
  apply sorts_before_ranks_before.
Qed.

Lemma ranking_ties_in_order :
  stable_index_sort argsort →
  StronglySorted keeps_input_order
    (sort_values argsort (make_frame rows) Long_term false na_last).
Proof.
  intros Hstable. eapply StronglySorted_weaken; [by apply sort_values_stable|].
  intros r1 r2 _ _ Hlt Hsame. by apply Hlt, same_key_ties_with.
Qed.

Lemma ranking_absent_in_order :
  StronglySorted
    (fun r1 r2 => Long_term r1.2 = None → Long_term r2.2 = None ∧ r1.1 < r2.1)
    (sort_values argsort (make_frame rows) Long_term false na_last).
Proof.
  eapply StronglySorted_weaken; [by apply sort_values_missing_in_order|].
  intros r1 r2 _ (r2' & _ & ->)%ranking_row_cells Hna Hnone.
  rewrite Hnone in Hna. destruct (Hna eq_refl) as [Hna2 Hlt]. split; [|done].
  simpl in *. destruct (cell_cases (Long_term r2')) as [->|(x & Hx & Hnan)]; [done|].
  rewrite Hx in Hna2. simpl in Hna2. congruence.
Qed.

End RankingFacts.

(** C1, as the code has it. For an index sort that sorts and a list of
    records that is not empty, the ranking holds the rows of the given
    records, each once, in an order where no row stands before a row that
    outranks it: a row whose long term value is absent is followed by such
    rows only, and of two rows with a value the later one has the smaller or
    equal value.  In the rows of a frame NaN is an absent value, as None
    is.  Scenario A gives the stated frame. *)
Theorem ranking_sorted (argsort : list float → list nat) (returns : list ReturnData) :
  index_sort argsort →
  returns ≠ [] →
  (∃ ranking,
      create_ranking argsort returns = Ok ranking
      ∧ ranking ≡ₚ make_frame (map as_dict returns)
      ∧ StronglySorted (fun r1 r2 => ranks_before (Long_term r1.2) (Long_term r2.2)) ranking)
  ∧ create_ranking argsort scenario_A_returns = Ok scenario_A_ranking.
Proof.
  intros Hsort Hne. split.
  - eexists. split_and!; [by apply create_ranking_nonempty| |].
    + by apply sort_values_Permutation.
    + by apply ranking_ranked.
  - rewrite create_ranking_nonempty by done. f_equal.
    pose proof (sort_values_Permutation argsort Long_term
                  (map frame_row (map as_dict scenario_A_returns)) Hsort) as Hperm.
    pose proof (ranking_ranked argsort (map as_dict scenario_A_returns) Hsort) as Hranked.
    revert Hperm Hranked. unfold make_frame.
    generalize (sort_values argsort
                  (enumerate (map frame_row (map as_dict scenario_A_returns)))
                  Long_term false na_last).
    intros ranking Hperm Hranked.
    symmetry in Hperm. vm_compute enumerate in Hperm.
    apply Permutation_length_2_inv in Hperm as [-> | ->].
    + exfalso. apply StronglySorted_inv in Hranked as [_ Hhead].
      apply Forall_cons in Hhead as [Hhead _]. vm_compute in Hhead. discriminate.
    + vm_compute. reflexivity.
Qed.

Lemma ranking_sorted_witness :
  create_ranking stable_argsort scenario_A_returns = Ok scenario_A_ranking.
Proof.
  refine (proj2 (ranking_sorted stable_argsort scenario_A_returns
                   stable_argsort_index_sort _)).
  discriminate.
Defined.

(** No ranking comes out of an empty list: [sort_values] raises KeyError.
    And a record whose value is NaN is ranked as one without a value: it
    stays behind the record before it whose value is absent. *)
Lemma ranking_of_no_record_raises :
  create_ranking stable_argsort [] = Raise KeyError
  ∧ map long absent_then_nan = [None; Some nan]
  ∧ ∃ ranking,
      create_ranking stable_argsort absent_then_nan = Ok ranking
      ∧ map (fun r => (Operator r.2, Long_term r.2)) ranking = [("A", None); ("B", None)].
Proof.
  split; [reflexivity|]. split; [reflexivity|].
  eexists. split; reflexivity.
Qed.

(** C2, as the code has it. Rows with an absent long term value keep their
    input order whatever index sort is used, and come after all others; rows
    with equal values keep their input order when the index sort is stable,
    which the sorting kind used by default does not promise.  The label of a
    row is the position of its record in the input. *)
Theorem ranking_stability (argsort : list float → list nat) (returns : list ReturnData)
    (ranking : DataFrame) :
  create_ranking argsort returns = Ok ranking →
  (stable_index_sort argsort → StronglySorted keeps_input_order ranking)
  ∧ StronglySorted
      (fun r1 r2 => Long_term r1.2 = None → Long_term r2.2 = None ∧ r1.1 < r2.1) ranking
  ∧ (∀ r, r ∈ ranking →
       ∃ rd, returns !! r.1 = Some rd ∧ r.2 = frame_row (as_dict rd)).
Proof.
  intros Hranking.
  assert (returns ≠ []) as Hne by (by destruct returns).
  rewrite create_ranking_nonempty in Hranking by done. injection Hranking as <-.
  split_and!.
  - intros Hstable. by apply ranking_ties_in_order.
  - apply ranking_absent_in_order.
  - intros r (r0 & Hr0 & ->)%ranking_row_cells.
    change (@map) with (@fmap list _) in Hr0. rewrite list_lookup_fmap in Hr0.
    destruct (returns !! r.1) as [rd|]; [|done]. simpl in Hr0. injection Hr0 as <-.
    by exists rd.
Qed.

Lemma ranking_stability_witness :
  ∃ ranking,
    create_ranking stable_argsort mixed_returns = Ok ranking
    ∧ map (fun r => Operator r.2) ranking = ["E"; "A"; "C"; "B"; "D"]
    ∧ StronglySorted keeps_input_order ranking.
Proof.
  eexists. split; [reflexivity|]. split; [reflexivity|].
  exact (proj1 (ranking_stability stable_argsort mixed_returns _ eq_refl)
           stable_argsort_stable).
Defined.

(** An index sort that sorts, and with which the ranking of A and B at 5,
    C and D at 6 is D, C, B, A: the rows are in descending order of value,
    and neither pair of tied rows is in its input order.  Stability does
    not follow from sorting. *)
Lemma ranking_order_of_ties_depends_on_sort :
  index_sort unstable_argsort
  ∧ create_ranking unstable_argsort tied_returns = Ok tied_ranking
  ∧ map (fun r => (r.1, Operator r.2)) tied_ranking = [(3, "D"); (2, "C"); (1, "B"); (0, "A")]
  ∧ ¬ StronglySorted keeps_input_order tied_ranking.
Proof.
  split_and!; [exact unstable_argsort_index_sort|by vm_compute|by vm_compute|].
  unfold tied_ranking.
  intros Hsorted. apply StronglySorted_inv in Hsorted as [_ Hhead].
  apply Forall_cons in Hhead as [Hhead _].
  assert (3 < 2); [|lia]. apply Hhead. by vm_compute.
Qed.

(** ** Round trip *)

Lemma cell_lookup_numeric (m : gmap string float) (k : string) :
  numeric m → cell (m !! k) = m !! k.
Proof.
  intros Hm. destruct (m !! k) as [f|] eqn:Hk; [|done].
  apply cell_number. simpl. by apply (Hm k).
Qed.

(** C9, as the code has it. For a directory that is not empty (its names
    are the keys of a dict, hence distinct) and any three maps, the ranking
    of the aggregation is a permutation of the aggregated rows, and read back
    by operator name it gives for each directory entry the three lookups of
    its code, as cells, and nothing for any other name; the cells are the
    lookups themselves when the maps hold numbers only. *)
Theorem ranking_round_trip (argsort : list float → list nat)
    (directory : list (string * string))
    (short_data medium_data long_data : gmap string float) :
  index_sort argsort →
  NoDup (map fst directory) →
  directory ≠ [] →
  ∃ ranked,
    create_ranking argsort (aggregate directory short_data medium_data long_data) = Ok ranked
    ∧ ranked ≡ₚ make_frame (map as_dict (aggregate directory short_data medium_data long_data))
    ∧ (∀ name code, (name, code) ∈ directory →
         by_operator ranked !! name
           = Some (cell (short_data !! code), cell (medium_data !! code),
                   cell (long_data !! code)))
    ∧ (∀ name, name ∉ map fst directory → by_operator ranked !! name = None)
    ∧ (numeric short_data → numeric medium_data → numeric long_data →
       ∀ name code, (name, code) ∈ directory →
         by_operator ranked !! name
           = Some (short_data !! code, medium_data !! code, long_data !! code)).
Proof.
  intros Hsort Hnodup Hne.
  eexists. split.
  { apply create_ranking_nonempty. by destruct directory. }
  set (ranked := sort_values _ _ _ _ _).
  set (entry := fun '(name, code) =>
         (name, (cell (short_data !! code), cell (medium_data !! code),
                 cell (long_data !! code))) : string * _).
  assert (ranked ≡ₚ make_frame
            (map as_dict (aggregate directory short_data medium_data long_data))) as Hperm
    by (by apply sort_values_Permutation).
  assert (map (fun r : nat * Row =>
                 (Operator r.2, (Short_term r.2, Medium_term r.2, Long_term r.2)))
              (make_frame (map as_dict (aggregate directory short_data medium_data long_data)))
          = map entry directory) as Hrows.
  { rewrite <- (map_map snd (fun r : Row =>
                  (Operator r, (Short_term r, Medium_term r, Long_term r)))).
    unfold make_frame. rewrite enumerate_rows. unfold aggregate. rewrite !map_map.
    apply map_ext. by intros [name code]. }
  assert (map fst (map entry directory) = map fst directory) as Hnames.
  { rewrite map_map. apply map_ext. by intros [name code]. }
  assert (by_operator ranked = list_to_map (map entry directory)) as Hmap.
  { unfold by_operator. rewrite <- Hrows. symmetry. apply list_to_map_proper.
    - change (@fmap list _) with (@map). by rewrite Hrows, Hnames.
    - by rewrite Hperm. }
  assert (∀ name code, (name, code) ∈ directory →
            by_operator ranked !! name
              = Some (cell (short_data !! code), cell (medium_data !! code),
                      cell (long_data !! code))) as Hlookup.
  { intros name code Hin. rewrite Hmap. apply elem_of_list_to_map.
    - change (@fmap list _) with (@map). by rewrite Hnames.
    - apply (list_elem_of_fmap_2 entry directory (name, code) Hin). }
  split_and!; [done|done| |].
  - intros name Hname. rewrite Hmap. apply not_elem_of_list_to_map.
    change (@fmap list _) with (@map). by rewrite Hnames.
  - intros Hs Hm Hl name code Hin. rewrite (Hlookup name code Hin).
    by rewrite !cell_lookup_numeric.
Qed.

Lemma ranking_round_trip_witness :
  ∃ ranked,
    create_ranking stable_argsort scenario_A_returns = Ok ranked
    ∧ by_operator ranked !! "X" = Some (Some (float_lit "8.5"), None, Some (float_lit "7.0")).
Proof.
  assert (NoDup (map fst scenario_A_directory)) as Hnodup.
  { apply NoDup_ListNoDup. repeat constructor; simpl; intuition discriminate. }
  destruct (ranking_round_trip stable_argsort scenario_A_directory
              scenario_A_short scenario_A_medium scenario_A_long
              stable_argsort_index_sort Hnodup ltac:(discriminate))
    as (ranked & Hranked & _ & Hlookup & _).
  exists ranked. split; [exact Hranked|].
  exact (Hlookup "X" "C1" ltac:(repeat constructor)).
Defined.

(** With an empty directory the aggregation is empty and the ranking
    raises: there is nothing to read back. *)
Lemma round_trip_of_empty_directory_raises :
  aggregate [] ∅ ∅ ∅ = []
  ∧ create_ranking stable_argsort (aggregate [] ∅ ∅ ∅) = Raise KeyError.
Proof. split; reflexivity. Qed.

(** * Further properties *)

(** ** Requests and their failures (lines 167 to 177) *)

Lemma endpoints_lookup_None horizon :
  endpoints_lookup horizon ENDPOINTS = None ↔ horizon ∉ HORIZONS.
Proof.
  unfold ENDPOINTS, HORIZONS. cbn [endpoints_lookup].
  destruct (string_dec "short" horizon) as [<-|H1].
  { split; [done|]. intros Hn. destruct Hn. repeat constructor. }
  destruct (string_dec "medium" horizon) as [<-|H2].
  { split; [done|]. intros Hn. destruct Hn. repeat constructor. }
  destruct (string_dec "long" horizon) as [<-|H3].
  { split; [done|]. intros Hn. destruct Hn. repeat constructor. }
  split; [|done]. intros _ Hin.
  repeat (apply elem_of_cons in Hin as [->|Hin]; [done|]).
  by apply elem_of_nil in Hin.
Qed.

Lemma endpoints_lookup_known horizon :
  horizon ∈ HORIZONS →
  ∃ cfg, endpoints_lookup horizon ENDPOINTS = Some cfg
         ∧ url_of horizon = BASE_URL ++ endpoint cfg.
Proof.
  intros Hin. unfold url_of.
  destruct (endpoints_lookup horizon ENDPOINTS) as [cfg|] eqn:Hcfg; [by exists cfg|].
  by apply endpoints_lookup_None in Hcfg.
Qed.

(** X1. A horizon other than short, medium and long makes the fetch raise
    ValueError at once: no request is sent and the log is left as it
    was. *)
Theorem fetch_unsupported_horizon (repr : json → string)
    (network : string → outcome response) (horizon : string) (log : list event) :
  horizon ∉ HORIZONS →
  fetch_returns_for_horizon repr network horizon log = (Raise ValueError, log).
Proof.
  intros Hn%endpoints_lookup_None.
  unfold fetch_returns_for_horizon, mbind, IO_bind, lift. by rewrite Hn.
Qed.

Lemma fetch_unsupported_horizon_witness :
  fetch_returns_for_horizon plain_repr empty_list_network "weekly" [ESleep 1]
    = (Raise ValueError, [ESleep 1]).
Proof.
  apply (fetch_unsupported_horizon plain_repr empty_list_network "weekly" [ESleep 1]).
  unfold HORIZONS. intros Hin.
  repeat (apply elem_of_cons in Hin as [Heq|Hin]; [discriminate|]).
  by apply elem_of_nil in Hin.
Defined.

(** X2. Once the server has answered, the fetch raises HTTPError exactly
    when the status code lies in 400..599, whatever the body holds: the
    status is checked before the body is read, and nothing after that check
    raises this error. *)
Theorem fetch_http_error_iff_status (repr : json → string)
    (network : string → outcome response) (horizon : string) (resp : response)
    (log : list event) :
  horizon ∈ HORIZONS →
  network (url_of horizon) = Ok resp →
  (fetch_returns_for_horizon repr network horizon log).1 = Raise HTTPError
  ↔ (400 ≤ status_code resp < 600)%Z.
Proof.
  intros (cfg & Hcfg & Hurl)%endpoints_lookup_known Hnet. rewrite Hurl in Hnet.
  rewrite (fetch_unfold repr network horizon cfg log Hcfg). simpl. rewrite Hnet. simpl.
  unfold raise_for_status.
  destruct ((400 <=? status_code resp)%Z && (status_code resp <? 600)%Z) eqn:Hst; simpl.
  - split; [|done]. intros _. apply andb_prop in Hst as [H1 H2]. lia.
  - split; [|intros H; apply andb_false_iff in Hst as [Hst|Hst]; lia].
    unfold response_json.
    destruct (body resp) as [data|]; simpl; [|by destruct (json_error resp)].
    destruct (locate_records data) as [records|e] eqn:Hloc; simpl.
    + intros Hr. by destruct (for_records_raises _ _ _ _ _ Hr).
    + by rewrite (locate_records_error _ _ Hloc).
Qed.

Lemma fetch_http_error_iff_status_witness :
  (fetch_returns_for_horizon plain_repr not_found_network "long" []).1 = Raise HTTPError
  ↔ (400 ≤ 404 < 600)%Z.
Proof.
  exact (fetch_http_error_iff_status plain_repr not_found_network "long"
           {| status_code := 404; body := Some (JList []); json_error := NotJSON |} []
           ltac:(unfold HORIZONS; repeat constructor) eq_refl).
Defined.

(** X3. Every failure of the fetch of a supported horizon has one of these
    causes, met in this order: the transport raised the error itself; the
    status check raised HTTPError; [response.json()] raised the error
    (JSONDecodeError for a body that is not JSON, ValueError for an integer
    of too many digits, RecursionError for too deep a nesting); the body has
    no recognised shape (KeyError); a record ended the loop with
    AttributeError or OverflowError.  Nothing else escapes. *)
Theorem fetch_failure_causes (repr : json → string) (network : string → outcome response)
    (horizon : string) (log : list event) (e : exn) :
  horizon ∈ HORIZONS →
  (fetch_returns_for_horizon repr network horizon log).1 = Raise e →
  network (url_of horizon) = Raise e
  ∨ ∃ resp, network (url_of horizon) = Ok resp
      ∧ (e = HTTPError
         ∨ (body resp = None ∧ e = json_failure_error (json_error resp))
         ∨ ∃ data, body resp = Some data
             ∧ ((e = KeyError ∧ ¬ recognised_envelope data)
                ∨ ((e = AttributeError ∨ e = OverflowError)
                   ∧ ∃ records, locate_records data = Ok records))).
Proof.
  intros (cfg & Hcfg & Hurl)%endpoints_lookup_known. rewrite Hurl.
  rewrite (fetch_unfold repr network horizon cfg log Hcfg). simpl.
  destruct (network _) as [resp|e'] eqn:Hnet; simpl; [|intros [= <-]; by left].
  intros Hr. right. exists resp. split; [done|].
  destruct (raise_for_status resp) as [[]|e'] eqn:Hst; simpl in Hr.
  2: { left. unfold raise_for_status in Hst. destruct (_ && _); congruence. }
  unfold response_json in Hr. destruct (body resp) as [data|]; simpl in Hr.
  2: { right. left. by injection Hr as <-. }
  right. right. exists data. split; [done|].
  destruct (locate_records data) as [records|e'] eqn:Hloc; simpl in Hr.
  - right. split; [by eapply for_records_raises|by exists records].
  - left. injection Hr as <-. split; [by eapply locate_records_error|].
    intros [records Hrec]%locate_records_recognised. congruence.
Qed.

Lemma fetch_failure_causes_witness :
  digit_limit_network (url_of "short") = Raise ValueError
  ∨ ∃ resp, digit_limit_network (url_of "short") = Ok resp
      ∧ (ValueError = HTTPError
         ∨ (body resp = None ∧ ValueError = json_failure_error (json_error resp))
         ∨ ∃ data, body resp = Some data
             ∧ ((ValueError = KeyError ∧ ¬ recognised_envelope data)
                ∨ ((ValueError = AttributeError ∨ ValueError = OverflowError)
                   ∧ ∃ records, locate_records data = Ok records))).
Proof.
  exact (fetch_failure_causes plain_repr digit_limit_network "short" [] ValueError
           ltac:(unfold HORIZONS; repeat constructor) eq_refl).
Defined.

(** ** The three kinds of records (lines 198 to 207) *)

Section LoopFacts.
Local Open Scope list_scope.

Variable repr : json → string.

Lemma py_float_overflow value :
  py_float value = Raise OverflowError ↔
  ∃ n, value = JInt n ∧ float_of_int n = Raise OverflowError.
Proof.
  split.
  - destruct value as [|b|n|f|s|l|d]; simpl; try done.
    + intros H. by exists n.
    + by destruct (float_of_string s).
  - by intros (n & -> & H).
Qed.

Lemma process_record_fatal field result rec e :
  process_record repr field result rec = Raise e ↔ fatal field rec e.
Proof.
  unfold process_record, try_except, fatal.
  destruct rec as [| | | | | |d]; simpl; try (split; [by intros [= <-]|by intros ->]).
  unfold dict_getitem. destruct (dict_lookup field d) as [value|] eqn:Hvalue; simpl.
  2: { split; [done|]. by intros (_ & _ & n & ? & _). }
  destruct (truthy (operator_code_of d)); [|split; [done|by intros [? _]]].
  destruct (py_float value) as [f|e'] eqn:Hf; simpl.
  { split; [done|]. intros (_ & _ & n & [= ->] & Hn). simpl in Hf. congruence. }
  destruct (py_float_raises _ _ Hf) as [->|[->| ->]]; simpl.
  - split; [done|]. intros (_ & _ & n & [= ->] & Hn). simpl in Hf. congruence.
  - split; [done|]. intros (_ & _ & n & [= ->] & Hn). simpl in Hf. congruence.
  - apply py_float_overflow in Hf as (n & -> & Hn). split.
    + intros [= <-]. split_and!; [done|done|]. by exists n.
    + by intros (_ & -> & _).
Qed.

Lemma process_record_skipped field result rec :
  skipped field rec → process_record repr field result rec = Ok result.
Proof.
  intros (d & -> & [Hnone|[Hfalsy|(value & e & Hvalue & Hf & He)]]).
  - by apply process_record_missing_value.
  - by apply process_record_falsy_code.
  - by eapply process_record_bad_value.
Qed.

Lemma for_records_raise_iff field records result e :
  for_records repr field records result = Raise e ↔
  ∃ l1 rec l2, records = l1 ++ rec :: l2
    ∧ (∀ r e', r ∈ l1 → ¬ fatal field r e')
    ∧ fatal field rec e.
Proof.
  revert result. induction records as [|rec rest IH]; intros result; simpl.
  { split; [done|]. intros (l1 & r & l2 & Heq & _). by destruct l1. }
  destruct (process_record repr field result rec) as [m|e'] eqn:Hrec; simpl.
  - rewrite IH. split.
    + intros (l1 & r & l2 & -> & Hl1 & Hr). exists (rec :: l1), r, l2.
      split_and!; [done| |done].
      intros r' e'' [->|Hin]%elem_of_cons; [|by eapply Hl1].
      intros Hf%(process_record_fatal field result). congruence.
    + intros (l1 & r & l2 & Heq & Hl1 & Hr). destruct l1 as [|r1 l1]; simpl in Heq.
      * injection Heq as <- <-. apply (process_record_fatal field result) in Hr. congruence.
      * injection Heq as <- ->. exists l1, r, l2. split_and!; [done| |done].
        intros r' e'' Hin. apply Hl1. by right.
  - split.
    + intros [= <-]. exists [], rec, rest. split_and!; [done| |].
      * intros r e'' Hin. by apply elem_of_nil in Hin.
      * by apply (process_record_fatal field result).
    + intros (l1 & r & l2 & Heq & Hl1 & Hr). destruct l1 as [|r1 l1]; simpl in Heq.
      * injection Heq as <- <-. apply (process_record_fatal field result) in Hr. congruence.
      * injection Heq as <- ->. destruct (Hl1 rec e'); [left|].
        by apply (process_record_fatal field result).
Qed.

(** What a record does to a map is what it does to the empty map, laid
    over the map. *)
Lemma process_record_union field result rec :
  process_record repr field result rec
    = (m ← process_record repr field ∅ rec; Ok (m ∪ result)).
Proof.
  unfold process_record, try_except.
  destruct rec as [| | | | | |d]; simpl; try done.
  unfold dict_getitem. destruct (dict_lookup field d) as [value|]; simpl.
  2: { by rewrite (left_id_L ∅ (∪)). }
  destruct (truthy (operator_code_of d)); simpl; [|by rewrite (left_id_L ∅ (∪))].
  destruct (py_float value) as [f|e]; simpl.
  - by rewrite <- insert_union_l, (left_id_L ∅ (∪)).
  - destruct (_ || _); simpl; [|done]. by rewrite (left_id_L ∅ (∪)).
Qed.

Lemma for_records_union field records result :
  for_records repr field records result
    = (m ← for_records repr field records ∅; Ok (m ∪ result)).
Proof.
  revert result. induction records as [|rec rest IH]; intros result; simpl.
  { by rewrite (left_id_L ∅ (∪)). }
  rewrite process_record_union.
  destruct (process_record repr field ∅ rec) as [m0|e]; simpl; [|done].
  rewrite (IH (m0 ∪ result)), (IH m0).
  destruct (for_records repr field rest ∅) as [m|e]; simpl; [|done].
  by rewrite (assoc_L (∪)).
Qed.

End LoopFacts.

(** X4. Every element of the list of records is of exactly one of three
    kinds, and the kind tells what the loop does with it: it writes a value
    under a key, and the map gains this binding; or it is passed over (a
    mapping without the value field, with a falsy operator code, or with a
    value that [float] rejects with ValueError or TypeError), and the map
    stays as it is; or it ends the loop with an error (no mapping at all, or
    an integer value beyond the range of a double under a truthy code), and
    this error is raised. *)
Theorem record_classification (repr : json → string) (field : string) (rec : json)
    (result : gmap string float) :
  ((∃ k v, writes repr field rec k v
           ∧ process_record repr field result rec = Ok (<[k := v]> result))
   ∨ (skipped field rec ∧ process_record repr field result rec = Ok result)
   ∨ (∃ e, fatal field rec e ∧ process_record repr field result rec = Raise e))
  ∧ ¬ ((∃ k v, writes repr field rec k v) ∧ skipped field rec)
  ∧ ¬ ((∃ k v, writes repr field rec k v) ∧ ∃ e, fatal field rec e)
  ∧ ¬ (skipped field rec ∧ ∃ e, fatal field rec e).
Proof.
  split_and!.
  - assert ((∃ k v, writes repr field rec k v) ∨ skipped field rec
            ∨ (∃ e, fatal field rec e)) as Hkind.
    { destruct rec as [| | | | | |d]; try (right; right; by eexists).
      destruct (dict_lookup field d) as [value|] eqn:Hvalue.
      2: { right. left. exists d. split; [done|]. by left. }
      destruct (truthy (operator_code_of d)) eqn:Htruthy.
      2: { right. left. exists d. split; [done|]. right. by left. }
      destruct (py_float value) as [v|e] eqn:Hf.
      { left. eexists _, v. by exists d, value. }
      destruct (py_float_raises _ _ Hf) as [->|[->| ->]].
      + right. left. exists d. split; [done|]. right. right. exists value, TypeError. auto.
      + right. left. exists d. split; [done|]. right. right. exists value, ValueError. auto.
      + right. right. exists OverflowError. simpl. split_and!; [done|done|].
        apply py_float_overflow in Hf as (n & -> & Hn). by exists n. }
    destruct Hkind as [(k & v & Hw)|[Hskip|[e Hfatal]]].
    + left. exists k, v. split; [done|]. by apply process_record_writes.
    + right. left. split; [done|]. by apply process_record_skipped.
    + right. right. exists e. split; [done|]. by apply process_record_fatal.
  - intros [(k & v & d & value & -> & Htruthy & _ & Hvalue & Hf)
            (d' & [= <-] & [Hnone|[Hfalsy|(value' & e & Hvalue' & Hf' & _)]])];
      congruence.
  - intros [(k & v & d & value & -> & Htruthy & _ & Hvalue & Hf) [e Hfatal]].
    simpl in Hfatal. destruct Hfatal as (_ & _ & n & Hn & Hover).
    rewrite Hvalue in Hn. injection Hn as ->. simpl in Hf. congruence.
  - intros [(d & -> & Hskip) [e Hfatal]].
    simpl in Hfatal. destruct Hfatal as (Htruthy & _ & n & Hn & Hover).
    destruct Hskip as [Hnone|[Hfalsy|(value & e' & Hvalue & Hf & He)]]; try congruence.
    rewrite Hvalue in Hn. injection Hn as ->. simpl in Hf.
    rewrite Hover in Hf. injection Hf as <-. by destruct He.
Qed.

(** X5. A record that is passed over, for any of the three reasons, leaves
    the map as it is and raises nothing: the fetch gives the same result as
    without this record. *)
Theorem skipped_record_changes_nothing (repr : json → string) (field : string)
    (rec : json) (l1 l2 : list json) :
  skipped field rec →
  (∀ result, process_record repr field result rec = Ok result)
  ∧ extract_returns repr field (l1 ++ rec :: l2) = extract_returns repr field (l1 ++ l2).
Proof.
  intros Hskip. split; [intros result; by apply process_record_skipped|].
  unfold extract_returns. rewrite !for_records_app.
  destruct (for_records repr field l1 ∅) as [m1|]; [|done]. simpl.
  by rewrite process_record_skipped.
Qed.

Lemma skipped_record_changes_nothing_witness :
  extract_returns plain_repr "rendimiento"
    [ JDict [("operador", JStr "C1"); ("rendimiento", JStr "n/a")];
      JDict [("operador", JStr "C2"); ("rendimiento", JStr "7.5")] ]
  = extract_returns plain_repr "rendimiento"
      [ JDict [("operador", JStr "C2"); ("rendimiento", JStr "7.5")] ].
Proof.
  refine (proj2 (skipped_record_changes_nothing plain_repr "rendimiento"
                   (JDict [("operador", JStr "C1"); ("rendimiento", JStr "n/a")])
                   [] [JDict [("operador", JStr "C2"); ("rendimiento", JStr "7.5")]] _)).
  exists [("operador", JStr "C1"); ("rendimiento", JStr "n/a")]. split; [reflexivity|].
  right. right. exists (JStr "n/a"), ValueError.
  split_and!; [reflexivity|reflexivity|by left].
Defined.

(** X6. The loop over the records raises exactly when some record ends it,
    and the error is that of the first such record: whatever stands after
    it is not read, and what the records before it wrote is lost. *)
Theorem records_fail_at_first_fatal (repr : json → string) (field : string)
    (records : list json) (e : exn) :
  extract_returns repr field records = Raise e ↔
  ∃ l1 rec l2, records = (l1 ++ rec :: l2)%list
    ∧ (∀ r e', r ∈ l1 → ¬ fatal field r e')
    ∧ fatal field rec e.
Proof. exact (for_records_raise_iff repr field records ∅ e). Qed.

(** X7. The records of two lists read one after the other give the union
    of the two maps in which the second list wins on shared keys; when the
    two maps share no key, the order of the two lists does not matter. *)
Theorem extract_returns_concat (repr : json → string) (field : string)
    (l1 l2 : list json) (m1 m2 : gmap string float) :
  extract_returns repr field l1 = Ok m1 →
  extract_returns repr field l2 = Ok m2 →
  extract_returns repr field (l1 ++ l2) = Ok (m2 ∪ m1)
  ∧ (dom m1 ## dom m2 →
     extract_returns repr field (l2 ++ l1) = extract_returns repr field (l1 ++ l2)).
Proof.
  unfold extract_returns. intros H1 H2.
  assert (∀ a b ma mb, for_records repr field a ∅ = Ok ma →
            for_records repr field b ∅ = Ok mb →
            for_records repr field (a ++ b) ∅ = Ok (mb ∪ ma)) as Happ.
  { intros a b ma mb Ha Hb. rewrite for_records_app, Ha. simpl.
    by rewrite for_records_union, Hb. }
  split; [by apply Happ|].
  intros Hdisj. rewrite (Happ l1 l2 m1 m2), (Happ l2 l1 m2 m1) by done.
  f_equal. apply map_union_comm. by apply map_disjoint_dom.
Qed.

Lemma extract_returns_concat_witness :
  extract_returns plain_repr "rendimiento" scenario_D_records
    = Ok ({[ "C1" := float_lit "9.5" ]} ∪ {[ "C1" := float_lit "7.0" ]}).
Proof.
  exact (proj1 (extract_returns_concat plain_repr "rendimiento"
                  [JDict [("operador", JStr "C1"); ("rendimiento", JFloat (float_lit "7.0"))]]
                  [JDict [("operador", JStr " C1 "); ("rendimiento", JFloat (float_lit "9.5"))]]
                  {[ "C1" := float_lit "7.0" ]} {[ "C1" := float_lit "9.5" ]}
                  eq_refl eq_refl)).
Defined.

(** ** The keys of the map (line 204) *)

Section StripFacts.

Lemma rev_app_append s1 s2 s3 :
  String.rev_app s1 s2 ++ s3 = String.rev_app s1 (s2 ++ s3).
Proof. revert s2. induction s1 as [|c r IH]; intros s2; simpl; [done|]. by rewrite IH. Qed.

Lemma string_rev_cons c r : String.rev (String c r) = String.rev r ++ String c "".
Proof. unfold String.rev. simpl. by rewrite rev_app_append. Qed.

Lemma rev_app_of_append s t acc :
  String.rev_app (s ++ t) acc = String.rev_app t (String.rev_app s acc).
Proof. revert acc. induction s as [|c r IH]; intros acc; simpl; [done|]. by rewrite IH. Qed.

Lemma string_rev_snoc s c : String.rev (s ++ String c "") = String c (String.rev s).
Proof. unfold String.rev. by rewrite rev_app_of_append. Qed.

Lemma rev_app_rev_app s a b :
  String.rev_app (String.rev_app s a) b = String.rev_app a (s ++ b).
Proof.
  revert a b. induction s as [|c r IH]; intros a b; simpl; [done|]. by rewrite IH.
Qed.

Lemma string_rev_rev s : String.rev (String.rev s) = s.
Proof.
  unfold String.rev. rewrite rev_app_rev_app. cbn [String.rev_app].
  induction s as [|c r IH]; [done|].
  change (String c (r ++ "") = String c r). by f_equal.
Qed.

Lemma lstrip_starts s : starts_with_space (PyStr.lstrip s) = false.
Proof.
  induction s as [|c r IH]; simpl; [done|].
  destruct (PyStr.isspace c) eqn:Hc; [done|]. simpl. done.
Qed.

Lemma lstrip_clean s : starts_with_space s = false → PyStr.lstrip s = s.
Proof. destruct s as [|c r]; simpl; [done|]. by intros ->. Qed.

Lemma lstrip_snoc s c :
  PyStr.isspace c = false → PyStr.lstrip (s ++ String c "") = PyStr.lstrip s ++ String c "".
Proof.
  intros Hc. induction s as [|a r IH]; simpl; [by rewrite Hc|].
  by destruct (PyStr.isspace a).
Qed.

Lemma rstrip_cons c r :
  PyStr.isspace c = false → PyStr.rstrip (String c r) = String c (PyStr.rstrip r).
Proof.
  intros Hc. unfold PyStr.rstrip.
  by rewrite string_rev_cons, lstrip_snoc, string_rev_snoc.
Qed.

Lemma rstrip_starts s : starts_with_space s = false → starts_with_space (PyStr.rstrip s) = false.
Proof.
  destruct s as [|c r]; [done|]. simpl. intros Hc. by rewrite rstrip_cons.
Qed.

Lemma rstrip_ends s : ends_with_space (PyStr.rstrip s) = false.
Proof. unfold ends_with_space, PyStr.rstrip. rewrite string_rev_rev. apply lstrip_starts. Qed.

Lemma rstrip_clean s : ends_with_space s = false → PyStr.rstrip s = s.
Proof.
  unfold ends_with_space, PyStr.rstrip. intros H. by rewrite lstrip_clean, string_rev_rev.
Qed.

Lemma strip_starts s : starts_with_space (PyStr.strip s) = false.
Proof. unfold PyStr.strip. apply rstrip_starts, lstrip_starts. Qed.

Lemma strip_ends s : ends_with_space (PyStr.strip s) = false.
Proof. apply rstrip_ends. Qed.

Lemma strip_clean s :
  starts_with_space s = false → ends_with_space s = false → PyStr.strip s = s.
Proof. intros H1 H2. unfold PyStr.strip. by rewrite lstrip_clean, rstrip_clean. Qed.

Lemma strip_strip s : PyStr.strip (PyStr.strip s) = PyStr.strip s.
Proof. apply strip_clean; [apply strip_starts|apply strip_ends]. Qed.

Lemma lstrip_all_space s : all_space s = true → PyStr.lstrip s = "".
Proof.
  induction s as [|c r IH]; simpl; [done|].
  intros [Hc Hr]%andb_prop. rewrite Hc. auto.
Qed.

Lemma strip_all_space s : all_space s = true → PyStr.strip s = "".
Proof. intros H. unfold PyStr.strip. by rewrite lstrip_all_space. Qed.

End StripFacts.

(** X8. No key of the map that the loop returns begins or ends with a
    white space character: every key is its own trimmed form. *)
Theorem fetch_keys_trimmed (repr : json → string) (field : string) (records : list json)
    (m : gmap string float) :
  extract_returns repr field records = Ok m →
  ∀ k, is_Some (m !! k) →
    starts_with_space k = false ∧ ends_with_space k = false ∧ PyStr.strip k = k.
Proof.
  intros Hm k [v Hk].
  destruct (for_records_origin repr field records ∅ m k v Hm Hk) as [Hempty|Hrec].
  { by rewrite lookup_empty in Hempty. }
  destruct Hrec as (rec & _ & d & value & _ & _ & -> & _).
  split_and!; [apply strip_starts|apply strip_ends|apply strip_strip].
Qed.

Lemma fetch_keys_trimmed_witness :
  starts_with_space "C1" = false ∧ ends_with_space "C1" = false ∧ PyStr.strip "C1" = "C1".
Proof.
  apply (fetch_keys_trimmed plain_repr "rendimiento" scenario_D_records
           (<["C1" := float_lit "9.5"]> (<["C1" := float_lit "7.0"]> ∅))).
  - vm_compute; reflexivity.
  - exists (float_lit "9.5"). apply lookup_insert_eq.
Defined.

(** X9. An operator code that is a string of white space only, and not
    empty, is truthy: the record is not passed over, and its value is stored
    under the empty key. *)
Theorem blank_code_stored_under_empty_key (repr : json → string) (field : string)
    (result : gmap string float) (d : dict) (s : string) (value : json) (v : float) :
  operator_code_of d = JStr s →
  s ≠ "" →
  all_space s = true →
  dict_lookup field d = Some value →
  py_float value = Ok v →
  process_record repr field result (JDict d) = Ok (<["" := v]> result)
  ∧ extract_returns repr field [JDict d] = Ok {[ "" := v ]}.
Proof.
  intros Hcode Hne Hsp Hvalue Hf.
  assert (writes repr field (JDict d) "" v) as Hw.
  { exists d, value. rewrite Hcode. simpl. split_and!; try done.
    - by rewrite bool_decide_eq_false_2.
    - by rewrite strip_all_space. }
  split; [by apply process_record_writes|].
  unfold extract_returns. simpl. by rewrite (process_record_writes repr field ∅ _ "" v).
Qed.

Lemma blank_code_stored_under_empty_key_witness :
  extract_returns plain_repr "rendimiento" [JDict blank_code_record]
    = Ok {[ "" := float_lit "7.0" ]}.
Proof.
  exact (proj2 (blank_code_stored_under_empty_key plain_repr "rendimiento" ∅
                  blank_code_record "  " (JFloat (float_lit "7.0")) (float_lit "7.0")
                  eq_refl ltac:(discriminate) eq_refl eq_refl eq_refl)).
Defined.

(** ** What aggregation reads (lines 225 to 234) *)

(** X10. Two triples of maps aggregate to the same records exactly when
    they agree on the codes of the directory: entries under any other code
    are never read. *)
Theorem aggregate_reads_directory_codes_only (directory : list (string * string))
    (s m l s' m' l' : gmap string float) :
  aggregate directory s m l = aggregate directory s' m' l'
  ↔ ∀ name code, (name, code) ∈ directory →
      s !! code = s' !! code ∧ m !! code = m' !! code ∧ l !! code = l' !! code.
Proof.
  unfold aggregate. induction directory as [|[name code] rest IH]; simpl.
  { split; [|done]. intros _ name code Hin. by apply elem_of_nil in Hin. }
  split.
  - intros [= Hs Hm Hl Hrest] name' code' [Heq|Hin]%elem_of_cons.
    + by injection Heq as -> ->.
    + by apply (proj1 IH Hrest name').
  - intros H. f_equal.
    + destruct (H name code) as (-> & -> & ->); [left|done].
    + apply (proj2 IH). intros name' code' Hin. apply (H name'). by right.
Qed.

(** ** Requests, pauses and messages of a run (lines 219 to 224, 265 to 277) *)

(** X11. The collection fetches short, medium and long in this order and
    stops at the first fetch that raises, with its error.  It sends one
    request per fetch it starts, pauses ten seconds after each successful
    fetch but the last, and so never pauses before the first request, after
    the last one or after a failure. *)
Theorem collect_returns_pacing (repr : json → string) (network : string → outcome response)
    (log : list event) :
  (collect_returns repr network log).1
    = (short_data ← horizon_outcome repr network "short";
       medium_data ← horizon_outcome repr network "medium";
       long_data ← horizon_outcome repr network "long";
       Ok (aggregate OPERATORS short_data medium_data long_data))
  ∧ (collect_returns repr network log).2
    = (log ++ EGet (BASE_URL ++ "/rendimientos/nominal/12meses")
        :: (if is_ok (horizon_outcome repr network "short")
            then ESleep 10 :: EGet (BASE_URL ++ "/rendimientos/nominal/36meses")
                 :: (if is_ok (horizon_outcome repr network "medium")
                     then [ESleep 10; EGet (BASE_URL ++ "/rendimientos/nominal/60meses")]
                     else [])
            else []))%list.
Proof.
  rewrite collect_returns_unfold.
  destruct (horizon_outcome repr network "short"); [|done].
  destruct (horizon_outcome repr network "medium"); [|done].
  by destruct (horizon_outcome repr network "long").
Qed.

(** X12. When the collection raises, the run prints one message after what
    the collection logged and yields nothing: the text is the HTTP one for
    HTTPError, the data format one for KeyError, and the general one for
    every other error, the JSON decoding error included. *)
Theorem main_failure_message (repr : json → string) (network : string → outcome response)
    (argsort : list float → list nat) (log log' : list event) (e : exn) :
  collect_returns repr network log = (Raise e, log') →
  main repr network argsort log
    = (Ok None,
       (log' ++ [EPrint (match e with
                         | HTTPError => "HTTP error when contacting SUPEN API: "
                         | KeyError => "Unexpected data format: "
                         | _ => "An error occurred: "
                         end) e])%list).
Proof.
  intros Hc. rewrite main_unfold, Hc. by destruct e.
Qed.

Lemma main_failure_message_witness :
  main plain_repr not_found_network stable_argsort []
    = (Ok None,
       [EGet (BASE_URL ++ "/rendimientos/nominal/12meses");
        EPrint "HTTP error when contacting SUPEN API: " HTTPError]).
Proof.
  exact (main_failure_message plain_repr not_found_network stable_argsort []
           [EGet (BASE_URL ++ "/rendimientos/nominal/12meses")] HTTPError eq_refl).
Defined.

(** X13. Whenever the run yields a ranking, it has six rows and names each
    operator of the directory once, whatever the server sent. *)
Theorem main_ranks_every_operator (repr : json → string)
    (network : string → outcome response) (argsort : list float → list nat)
    (log : list event) (ranking : DataFrame) :
  index_sort argsort →
  (main repr network argsort log).1 = Ok (Some ranking) →
  map (fun r => Operator r.2) ranking ≡ₚ map fst OPERATORS
  ∧ length ranking = 6%nat.
Proof.
  intros Hsort. rewrite main_unfold, collect_returns_unfold.
  destruct (horizon_outcome repr network "short") as [s|]; [|done].
  destruct (horizon_outcome repr network "medium") as [m|]; [|done].
  destruct (horizon_outcome repr network "long") as [l|]; [|done].
  cbn [fst]. rewrite create_ranking_nonempty by done. intros [= <-].
  pose proof (sort_values_Permutation argsort Long_term
                (map frame_row (map as_dict (aggregate OPERATORS s m l))) Hsort) as Hperm.
  fold (make_frame (map as_dict (aggregate OPERATORS s m l))) in Hperm.
  split.
  - change (map (λ r : nat * Row, Operator r.2))
      with (fmap (M:=list) (λ r : nat * Row, Operator r.2)).
    rewrite Hperm. done.
  - by rewrite Hperm.
Qed.

Lemma main_ranks_every_operator_witness :
  map (fun r => Operator r.2) directory_order_ranking ≡ₚ map fst OPERATORS
  ∧ length directory_order_ranking = 6%nat.
Proof.
  apply (main_ranks_every_operator plain_repr empty_list_network stable_argsort []).
  - exact stable_argsort_index_sort.
  - vm_compute; reflexivity.
Defined.

(** ** More on the ranking (lines 251 to 253) *)

Lemma leb_refl x : is_nan x = false → Float.leb x x = true.
Proof. float_cases. Qed.

Lemma leb_antisym x y : Float.leb x y = true → Float.leb y x = true → Float.eqb x y = true.
Proof. float_cases. Qed.

Section MoreListFacts.
Context {A : Type}.
Local Open Scope list_scope.

Lemma filter_none (P : A → Prop) `{∀ x, Decision (P x)} (l : list A) :
  Forall (fun x => ¬ P x) l → filter P l = [].
Proof.
  induction 1 as [|x l Hx _ IH]; [done|]. by rewrite filter_cons_False.
Qed.

Lemma filter_all (P : A → Prop) `{∀ x, Decision (P x)} (l : list A) :
  Forall P l → filter P l = l.
Proof.
  induction 1 as [|x l Hx _ IH]; [done|]. rewrite filter_cons_True by done. by f_equal.
Qed.

Lemma StronglySorted_and (R1 R2 : relation A) (l : list A) :
  StronglySorted R1 l → StronglySorted R2 l →
  StronglySorted (fun x y => R1 x y ∧ R2 x y) l.
Proof.
  induction l as [|x l IH]; [constructor|].
  intros [H1 F1]%StronglySorted_inv [H2 F2]%StronglySorted_inv.
  constructor; [by apply IH|].
  rewrite Forall_forall in *. intros y Hy. split; [by apply F1|by apply F2].
Qed.

End MoreListFacts.

Section MissingColumn.
Local Open Scope list_scope.

Variable argsort : list float → list nat.
Variable items : list (option float).
Hypothesis all_missing : Forall (fun v => isna v = true) items.

Lemma all_missing_mask i : i ∈ seq 0 (length items) → mask_at items i = true.
Proof.
  intros Hi%elem_of_seq. unfold mask_at.
  destruct (items !! i) as [v|] eqn:Hv; [|done].
  rewrite Forall_forall in all_missing. apply all_missing. by eapply list_elem_of_lookup_2.
Qed.

(** With nothing to sort, the index sort has no say. *)
Lemma nargsort_all_missing :
  nargsort argsort items false na_last = seq 0 (length items).
Proof.
  rewrite nargsort_descending. unfold present_positions, non_nan_idx, nan_idx.
  rewrite filter_none, filter_all.
  - simpl.
    assert (omap (λ k : nat, @nil nat !! k) (argsort (rev (non_nans items))) = []) as ->;
      [|done].
    induction (argsort _) as [|k l IH]; [done|]. exact IH.
  - apply Forall_forall. intros i Hi. by apply all_missing_mask.
  - apply Forall_forall. intros i Hi. rewrite all_missing_mask by done. done.
Qed.

End MissingColumn.

Section LabelFacts.
Local Open Scope list_scope.

Lemma take_rows_labels (rows1 rows2 : list Row) (indexer : list nat) :
  length rows1 = length rows2 →
  map fst (take_rows (enumerate rows1) indexer) = map fst (take_rows (enumerate rows2) indexer).
Proof.
  intros Hlen. unfold take_rows. induction indexer as [|i l IH]; [done|].
  assert (∀ rows : list Row,
            map fst (omap (λ i, enumerate rows !! i) (i :: l))
            = match enumerate rows !! i with
              | Some r => r.1 :: map fst (omap (λ i, enumerate rows !! i) l)
              | None => map fst (omap (λ i, enumerate rows !! i) l)
              end) as Hstep.
  { intros rows. simpl. by destruct (enumerate rows !! i). }
  rewrite !Hstep, IH. clear Hstep IH.
  destruct (enumerate rows1 !! i) as [r1|] eqn:H1, (enumerate rows2 !! i) as [r2|] eqn:H2.
  - apply enumerate_lookup in H1 as [E1 _]. apply enumerate_lookup in H2 as [E2 _].
    by rewrite E1, E2.
  - apply enumerate_lookup in H1 as [_ H1]. apply lookup_lt_Some in H1.
    apply lookup_ge_None in H2. unfold enumerate in H2. rewrite length_imap in H2. lia.
  - apply enumerate_lookup in H2 as [_ H2]. apply lookup_lt_Some in H2.
    apply lookup_ge_None in H1. unfold enumerate in H1. rewrite length_imap in H1. lia.
  - done.
Qed.

(** The column that the ranking sorts by. *)
Lemma frame_long_column (returns : list ReturnData) :
  map (fun r : nat * Row => Long_term r.2) (make_frame (map as_dict returns))
    = map cell (map long returns).
Proof.
  unfold make_frame.
  rewrite <- (map_map snd Long_term), enumerate_rows, !map_map. done.
Qed.

End LabelFacts.

(** X14. When no record has a long term value (absent or NaN each), the
    ranking is the frame of the records in their input order, whatever the
    index sort does. *)
Theorem ranking_without_values_keeps_input_order (argsort : list float → list nat)
    (returns : list ReturnData) :
  returns ≠ [] →
  (∀ rd, rd ∈ returns → isna (long rd) = true) →
  create_ranking argsort returns = Ok (make_frame (map as_dict returns)).
Proof.
  intros Hne Hall. rewrite create_ranking_nonempty by done. f_equal.
  unfold sort_values. rewrite frame_long_column, nargsort_all_missing.
  - rewrite !length_map, <- (length_map as_dict), <- (length_map frame_row).
    unfold take_rows, make_frame.
    rewrite <- (length_imap (fun i r => (i, r))). apply omap_lookup_seq.
  - apply Forall_forall. intros v Hv.
    change (@map) with (@fmap list _) in Hv.
    apply list_elem_of_fmap in Hv as (v' & -> & Hv').
    apply list_elem_of_fmap in Hv' as (rd & -> & Hrd).
    rewrite isna_cell. by apply Hall.
Qed.

Lemma ranking_without_values_keeps_input_order_witness :
  create_ranking unstable_argsort absent_then_nan
    = Ok (make_frame (map as_dict absent_then_nan)).
Proof.
  apply (ranking_without_values_keeps_input_order unstable_argsort absent_then_nan).
  - discriminate.
  - intros rd Hin. unfold absent_then_nan in Hin.
    repeat (apply elem_of_cons in Hin as [->|Hin]; [reflexivity|]).
    by apply elem_of_nil in Hin.
Defined.

(** X15. The first row of a ranking is a best one: no record of the input
    has a long term value above the one of the first row, and the first row
    has no value only if no record has one. *)
Theorem ranking_top_is_best (argsort : list float → list nat) (returns : list ReturnData)
    (top : nat * Row) (rest : DataFrame) :
  index_sort argsort →
  create_ranking argsort returns = Ok (top :: rest) →
  ∀ rd, rd ∈ returns → ranks_before (Long_term top.2) (cell (long rd)).
Proof.
  intros Hsort Hrank rd Hrd.
  assert (returns ≠ []) as Hne by (by destruct returns).
  rewrite create_ranking_nonempty in Hrank by done. injection Hrank as Hrank.
  pose proof (ranking_ranked argsort (map as_dict returns) Hsort) as Hsorted.
  pose proof (sort_values_Permutation argsort Long_term
                (map frame_row (map as_dict returns)) Hsort) as Hperm.
  fold (make_frame (map as_dict returns)) in Hperm.
  rewrite Hrank in Hsorted, Hperm.
  apply list_elem_of_lookup_1 in Hrd as [i Hi].
  assert ((i, frame_row (as_dict rd)) ∈ top :: rest) as Hin.
  { rewrite Hperm. apply (list_elem_of_lookup_2 _ i). apply enumerate_lookup. simpl.
    split; [done|]. change (@map) with (@fmap list _).
    by rewrite !list_lookup_fmap, Hi. }
  apply StronglySorted_inv in Hsorted as [_ Hall].
  apply elem_of_cons in Hin as [<-|Hin].
  - simpl. destruct (cell_cases (long rd)) as [->|(x & -> & Hx)]; simpl; [done|].
    by apply leb_refl.
  - rewrite Forall_forall in Hall. apply (Hall _ Hin).
Qed.

Lemma ranking_top_is_best_witness :
  ranks_before (Some (float_lit "9.0")) (cell (Some (float_lit "7.0"))).
Proof.
  apply (ranking_top_is_best stable_argsort scenario_A_returns
           (1, {| Operator := "Y"; Short_term := None; Medium_term := None;
                     Long_term := Some (float_lit "9.0") |})
           [(0, {| Operator := "X"; Short_term := Some (float_lit "8.5");
                      Medium_term := None; Long_term := Some (float_lit "7.0") |})]
           stable_argsort_index_sort
           ltac:(vm_compute; reflexivity)
           {| operator := "X"; short := Some (float_lit "8.5"); medium := None;
              long := Some (float_lit "7.0") |}).
  vm_compute. left.
Defined.

(** X16. When no two records carry equal long term numbers, the ranking
    is the same for every index sort that sorts: the order of the rows can
    depend on the sorting algorithm only through ties. *)
Theorem ranking_without_ties_unique (argsort1 argsort2 : list float → list nat)
    (returns : list ReturnData) :
  index_sort argsort1 →
  index_sort argsort2 →
  no_ties returns →
  create_ranking argsort1 returns = create_ranking argsort2 returns.
Proof.
  intros Hs1 Hs2 Hties. destruct (decide (returns = [])) as [->|Hne]; [done|].
  rewrite !create_ranking_nonempty by done. f_equal.
  set (R := fun r1 r2 : nat * Row =>
              ranks_before (Long_term r1.2) (Long_term r2.2)
              ∧ (Long_term r1.2 = None → Long_term r2.2 = None ∧ r1.1 < r2.1)).
  apply (StronglySorted_unique_strong R).
  - intros r1 r2 Hr1 Hr2 [Hb1 Ha1] [Hb2 Ha2].
    destruct (ranking_row_cells _ _ _ Hr1) as (x1 & Hx1 & Hc1).
    destruct (ranking_row_cells _ _ _ Hr2) as (x2 & Hx2 & Hc2).
    change (@map) with (@fmap list _) in Hx1, Hx2.
    rewrite list_lookup_fmap in Hx1, Hx2.
    destruct (returns !! r1.1) as [rd1|] eqn:Hrd1; [|done].
    destruct (returns !! r2.1) as [rd2|] eqn:Hrd2; [|done].
    simpl in Hx1, Hx2. injection Hx1 as <-. injection Hx2 as <-.
    assert (r1.1 = r2.1) as Hlabel.
    { rewrite Hc1, Hc2 in Hb1, Hb2, Ha1, Ha2. simpl in *.
      destruct (cell (long rd1)) as [a|] eqn:Hv1, (cell (long rd2)) as [b|] eqn:Hv2;
        simpl in *; try done.
      - apply (Hties r1.1 r2.1 rd1 rd2 a b); try done.
        + unfold cell in Hv1. by destruct (isna (long rd1)).
        + unfold cell in Hv2. by destruct (isna (long rd2)).
        + by apply leb_antisym.
      - destruct (Ha1 eq_refl) as [_ ?], (Ha2 eq_refl) as [_ ?]. lia. }
    destruct r1 as [i1 row1], r2 as [i2 row2]. simpl in *. subst.
    rewrite Hrd1 in Hrd2. by injection Hrd2 as ->.
  - apply StronglySorted_and; [by apply ranking_ranked|apply ranking_absent_in_order].
  - apply StronglySorted_and; [by apply ranking_ranked|apply ranking_absent_in_order].
  - unfold make_frame. by rewrite !sort_values_Permutation.
Qed.

Lemma ranking_without_ties_unique_witness :
  create_ranking stable_argsort scenario_A_returns
    = create_ranking unstable_argsort scenario_A_returns.
Proof.
  apply (ranking_without_ties_unique stable_argsort unstable_argsort scenario_A_returns
           stable_argsort_index_sort unstable_argsort_index_sort).
  intros i j rdi rdj x y Hi Hj Hx Hy Heq.
  destruct i as [|[|i]], j as [|[|j]]; try reflexivity; try discriminate Hi;
    try discriminate Hj;
    vm_compute in Hi, Hj; injection Hi as <-; injection Hj as <-;
    vm_compute in Hx, Hy; injection Hx as <-; injection Hy as <-;
    vm_compute in Heq; discriminate Heq.
Defined.

(** X17. The order of a ranking is read off the long term values alone:
    two lists of records with the same long term values, position by
    position, are ranked in the same order of positions, whatever their
    operators, short and medium term values are. *)
Theorem ranking_order_reads_long_only (argsort : list float → list nat)
    (returns1 returns2 : list ReturnData) (ranking1 ranking2 : DataFrame) :
  map long returns1 = map long returns2 →
  create_ranking argsort returns1 = Ok ranking1 →
  create_ranking argsort returns2 = Ok ranking2 →
  map fst ranking1 = map fst ranking2.
Proof.
  intros Hlong H1 H2.
  assert (length returns1 = length returns2) as Hlen.
  { by rewrite <- (length_map long returns1), Hlong, length_map. }
  assert (returns1 ≠ []) as Hne1 by (by destruct returns1).
  assert (returns2 ≠ []) as Hne2 by (by destruct returns2).
  rewrite create_ranking_nonempty in H1, H2 by done.
  injection H1 as <-. injection H2 as <-.
  unfold sort_values. rewrite !frame_long_column, Hlong.
  unfold make_frame. apply take_rows_labels. by rewrite !length_map.
Qed.

Lemma ranking_order_reads_long_only_witness :
  map fst scenario_A_ranking
    = map fst [ (1, {| Operator := "Y"; Short_term := Some (float_lit "2.5");
                       Medium_term := None; Long_term := Some (float_lit "9.0") |});
                (0, {| Operator := "X"; Short_term := None;
                       Medium_term := Some (float_lit "1.5");
                       Long_term := Some (float_lit "7.0") |}) ].
Proof.
  apply (ranking_order_reads_long_only stable_argsort scenario_A_returns
           scenario_A_other_terms).
  - vm_compute; reflexivity.
  - vm_compute; reflexivity.
  - vm_compute; reflexivity.
Defined.
